(** * Dynamic quote generator with server sync: a shallow embedding

    This development models the sync-enabled revision of the quote page
    (src/unnamed/part_000, lines 52-1048): the quote store, the sync engine
    ([fetchQuotesFromServer], [syncQuotes], [detectConflicts]), the conflict
    resolver ([resolveConflict], [resolveAllConflicts]), [addQuote],
    [importFromJsonFile] and [clearAllData].

    Modelling conventions.
    - JS strings are modelled as [string] (sequences of 8-bit code units);
      [toLowerCase] and [trim] are written out for that range.
    - The global mutable variables ([quotes], [pendingConflicts],
      [isSyncing], [lastSyncTime], [serverQuotes]) become the fields of the
      record [app]; every function is a state transformer on [app].
    - DOM output is kept only where the claims look at it: the sync status
      line ([showSyncStatus]) and the notifications ([showNotification]),
      the latter as an append-only log of structured messages.
    - Of [localStorage] only the failure of [setItem] is modelled: the
      flag [storageFull] says whether the write in [saveQuotes] throws, in
      which case its [catch] shows an error notice. Rendering and
      [Math.random] are pass-through collaborators and are not modelled;
      the page is assumed
      to provide the elements the script looks up, so [showSyncStatus]
      and [showNotification] do not throw.
    - [syncQuotes] is an [async] function: it is modelled as the segments
      of code between its [await]s, and a "world" holds the continuations
      of the cycles that are in flight. *)

From Stdlib Require Import Bool ZArith Ascii String List Lia Sorted.
Import ListNotations.
Open Scope string_scope.
Open Scope list_scope.

(* ------------------------------------------------------------------ *)
(** ** Strings: [toLowerCase] and [trim] *)

(** Characters removed by [String.prototype.trim] among code units
    0..255: TAB, LF, VT, FF, CR, SPACE and NO-BREAK SPACE. *)
Definition is_js_space (c : ascii) : bool :=
  let n := nat_of_ascii c in
  Nat.eqb n 9 || Nat.eqb n 10 || Nat.eqb n 11 || Nat.eqb n 12
  || Nat.eqb n 13 || Nat.eqb n 32 || Nat.eqb n 160.

(** [toLowerCase] on one code unit of 0..255: A-Z and the Latin-1
    capitals (192..222 except the multiplication sign 215). *)
Definition lower_char (c : ascii) : ascii :=
  let n := nat_of_ascii c in
  if (Nat.leb 65 n && Nat.leb n 90)
     || (Nat.leb 192 n && Nat.leb n 222 && negb (Nat.eqb n 215))
  then ascii_of_nat (n + 32) else c.

Fixpoint toLowerCase (s : string) : string :=
  match s with
  | EmptyString => EmptyString
  | String c r => String (lower_char c) (toLowerCase r)
  end.

Fixpoint trim_start (s : string) : string :=
  match s with
  | EmptyString => EmptyString
  | String c r => if is_js_space c then trim_start r else s
  end.

Fixpoint trim_end (s : string) : string :=
  match s with
  | EmptyString => EmptyString
  | String c r =>
      match trim_end r with
      | EmptyString => if is_js_space c then EmptyString else String c EmptyString
      | r' => String c r'
      end
  end.

Definition trim (s : string) : string := trim_end (trim_start s).

(** The matching key of [detectConflicts]: [s.toLowerCase().trim()]. *)
Definition normalize (s : string) : string := trim (toLowerCase s).

(* ------------------------------------------------------------------ *)
(** ** Quotes and conflicts *)

(** A quote object: [{ text, category, id?, source? }]. *)
Record quote := mkQuote {
  text : string;
  category : string;
  id : option Z;
  source : option string
}.

(** A conflict object: [{ local, server, type: 'category_mismatch' }]. *)
Record conflict := mkConflict {
  local : quote;
  server : quote
}.

(** [Array.prototype.find]. *)
Fixpoint find {A} (p : A -> bool) (l : list A) : option A :=
  match l with
  | [] => None
  | x :: r => if p x then Some x else find p r
  end.

(** Position of the first element satisfying [p], if any. *)
Fixpoint find_pos {A} (p : A -> bool) (l : list A) : option nat :=
  match l with
  | [] => None
  | x :: r => if p x then Some 0 else option_map S (find_pos p r)
  end.

(** [Array.prototype.findIndex]: [-1] when nothing matches. *)
Definition findIndex {A} (p : A -> bool) (l : list A) : Z :=
  match find_pos p l with
  | Some i => Z.of_nat i
  | None => (-1)%Z
  end.

(** [detectConflicts(serverData)] against the current [quotes]: one
    [forEach] pass pushing onto [conflicts] and [newServerQuotes]. *)
Definition detectConflicts (quotes serverData : list quote)
  : list conflict * list quote :=
  fold_left
    (fun '(conflicts, newServerQuotes) serverQuote =>
       let localMatch :=
         find (fun q => String.eqb (normalize (text q))
                                   (normalize (text serverQuote))) quotes in
       match localMatch with
       | Some l =>
           if negb (String.eqb (category l) (category serverQuote))
           then (conflicts ++ [mkConflict l serverQuote], newServerQuotes)
           else (conflicts, newServerQuotes)
       | None => (conflicts, newServerQuotes ++ [serverQuote])
       end)
    serverData ([], []).

(* ------------------------------------------------------------------ *)
(** ** Application state *)

(** A record of [https://jsonplaceholder.typicode.com/posts]. *)
Record post := mkPost {
  post_id : Z;
  post_title : string;
  post_userId : Z
}.

(** Why a fetch failed: [!response.ok] (the HTTP status) or an exception
    of the transport, of [response.json()] or of [posts.map] (its
    message). *)
Inductive fetch_error :=
| HttpError (status : Z)
| Thrown (msg : string).

(** What the transport delivers to [fetchQuotesFromServer]. *)
Inductive fetch_outcome :=
| FetchOk (posts : list post)
| FetchFailed (e : fetch_error).

(** The texts passed to [showSyncStatus]. *)
Inductive sync_status :=
| SyncingWithServer                 (* 'Syncing with server...', 'syncing' *)
| FetchingFromServer                (* 'Fetching from server...', 'syncing' *)
| FetchFailedStatus (e : fetch_error) (* 'Sync failed: ' + msg, 'error' *)
| NoServerData                      (* 'No server data available', 'error' *)
| SyncSuccessful                    (* 'Sync successful', 'success' *)
| SyncFailedStatus.                 (* 'Sync failed', 'error' *)

Inductive severity := Success | Error.

(** Why [importFromJsonFile] rejected a file. *)
Inductive import_error :=
| ParseError      (* [JSON.parse] threw *)
| NotArray        (* 'Invalid file format. Expected an array of quotes.' *)
| NoValidQuotes   (* 'No valid quotes found in the file.' *)
| NullElement.    (* TypeError: reading [text] of a [null] element *)

(** The messages passed to [showNotification]. *)
Inductive message :=
| MsgFetchFailed (e : fetch_error)
| MsgSyncAdded (n : nat)
| MsgSyncNoChanges
| MsgSyncFailed (msg : string)
| MsgConflictsResolved
| MsgAllServer
| MsgAllLocal
| MsgEnterBoth
| MsgQuoteAdded (newCategory : option string)
| MsgImported (n : nat) (newCategories : nat)
| MsgSkipped (n : nat)
| MsgImportError (e : import_error)
| MsgCleared
| MsgSaveFailed.

(** The module-level variables of the script, plus the observable
    effects the claims talk about: fetches issued and the bodies of the
    posts sent by [postQuotesToServer]. *)
Record app := mkApp {
  quotes : list quote;
  pendingConflicts : list conflict;
  isSyncing : bool;
  lastSyncTime : option Z;
  serverQuotes : list quote;
  syncStatus : option sync_status;
  notifications : list (message * severity);
  fetchesIssued : nat;
  postsIssued : list (list quote);
  storageFull : bool
}.

Definition set_quotes (qs : list quote) (a : app) : app :=
  mkApp qs (pendingConflicts a) (isSyncing a) (lastSyncTime a) (serverQuotes a)
        (syncStatus a) (notifications a) (fetchesIssued a) (postsIssued a) (storageFull a).

Definition set_pendingConflicts (cs : list conflict) (a : app) : app :=
  mkApp (quotes a) cs (isSyncing a) (lastSyncTime a) (serverQuotes a)
        (syncStatus a) (notifications a) (fetchesIssued a) (postsIssued a) (storageFull a).

Definition set_isSyncing (b : bool) (a : app) : app :=
  mkApp (quotes a) (pendingConflicts a) b (lastSyncTime a) (serverQuotes a)
        (syncStatus a) (notifications a) (fetchesIssued a) (postsIssued a) (storageFull a).

Definition set_lastSyncTime (t : Z) (a : app) : app :=
  mkApp (quotes a) (pendingConflicts a) (isSyncing a) (Some t) (serverQuotes a)
        (syncStatus a) (notifications a) (fetchesIssued a) (postsIssued a) (storageFull a).

Definition set_serverQuotes (sq : list quote) (a : app) : app :=
  mkApp (quotes a) (pendingConflicts a) (isSyncing a) (lastSyncTime a) sq
        (syncStatus a) (notifications a) (fetchesIssued a) (postsIssued a) (storageFull a).

Definition showSyncStatus (st : sync_status) (a : app) : app :=
  mkApp (quotes a) (pendingConflicts a) (isSyncing a) (lastSyncTime a)
        (serverQuotes a) (Some st) (notifications a) (fetchesIssued a)
        (postsIssued a) (storageFull a).

Definition showNotification (m : message) (sev : severity) (a : app) : app :=
  mkApp (quotes a) (pendingConflicts a) (isSyncing a) (lastSyncTime a)
        (serverQuotes a) (syncStatus a) (notifications a ++ [(m, sev)])
        (fetchesIssued a) (postsIssued a) (storageFull a).

(** [fetch(...)] issued: one more request on the wire. *)
Definition issue_fetch (a : app) : app :=
  mkApp (quotes a) (pendingConflicts a) (isSyncing a) (lastSyncTime a)
        (serverQuotes a) (syncStatus a) (notifications a)
        (S (fetchesIssued a)) (postsIssued a) (storageFull a).

(** [postQuotesToServer(quotes)] issued: the body is serialised when the
    call is made, so the snapshot of [quotes] at that moment is sent. *)
Definition issue_post (body : list quote) (a : app) : app :=
  mkApp (quotes a) (pendingConflicts a) (isSyncing a) (lastSyncTime a)
        (serverQuotes a) (syncStatus a) (notifications a)
        (fetchesIssued a) (postsIssued a ++ [body]) (storageFull a).

(** [closeConflictModal]: hides the modal and empties the queue. *)
Definition closeConflictModal (a : app) : app := set_pendingConflicts [] a.

(** [saveQuotes()]: when [localStorage.setItem] throws (the storage is
    full), its [catch] shows 'Error saving quotes. Storage may be full.';
    otherwise nothing observable here changes. *)
Definition saveQuotes (a : app) : app :=
  if storageFull a then showNotification MsgSaveFailed Error a else a.

(** The notices [saveQuotes()] adds in state [a]. *)
Definition save_notices (a : app) : list (message * severity) :=
  if storageFull a then [(MsgSaveFailed, Error)] else [].

(* ------------------------------------------------------------------ *)
(** ** Sync engine *)

(** [posts.map(post => ({ text: post.title, category: post.userId % 2 === 0
    ? "Server Wisdom" : "Server Insight", id: post.id, source: 'server' }))];
    JS [%] truncates like [Z.rem]. *)
Definition post_to_quote (p : post) : quote :=
  mkQuote (post_title p)
          (if Z.eqb (Z.rem (post_userId p) 2) 0
           then "Server Wisdom" else "Server Insight")
          (Some (post_id p)) (Some "server").

(** [fetchQuotesFromServer], the code before its first [await]. *)
Definition fetchQuotesFromServer_start (a : app) : app :=
  issue_fetch (showSyncStatus FetchingFromServer a).

(** [fetchQuotesFromServer], after the transport settled: the value it
    returns, with [[]] on every failure (the [catch] block). *)
Definition fetchQuotesFromServer_resume (o : fetch_outcome) (a : app)
  : app * list quote :=
  match o with
  | FetchOk posts =>
      let sq := map post_to_quote posts in
      (set_serverQuotes sq a, sq)
  | FetchFailed e =>
      (showNotification (MsgFetchFailed e) Error
         (showSyncStatus (FetchFailedStatus e) a), [])
  end.

(** Where a running [syncQuotes] is suspended. *)
Inductive sync_cont :=
| AwaitFetch                              (* [await fetchQuotesFromServer()] *)
| AwaitPost (nConflicts nNew : nat).      (* [await postQuotesToServer(quotes)] *)

(** What resumes a suspended [syncQuotes]: the settled fetch, the settled
    post (its boolean result is ignored) together with the clock read by
    [new Date()], or an exception thrown by the synchronous code of
    [syncQuotes] that runs after an [await] (for instance a [TypeError] in
    [detectConflicts] on a record whose title is not a string), taken
    before that code changed the state. [fetchQuotesFromServer] catches its
    own errors, so a throw after the first [await] comes after it returned
    the fetched [posts]: their snapshot is already in [serverQuotes]. *)
Inductive sync_event :=
| EvFetched (o : fetch_outcome)
| EvPosted (ok : bool) (now : Z)
| EvFetchedThenThrown (posts : list post) (msg : string)
| EvThrown (msg : string).

(** The [finally] block. *)
Definition sync_finally (a : app) : app := set_isSyncing false a.

(** The [catch] block followed by [finally]. *)
Definition sync_catch (msg : string) (a : app) : app :=
  sync_finally (showNotification (MsgSyncFailed msg) Error
                  (showSyncStatus SyncFailedStatus a)).

(** [syncQuotes()] up to its first suspension: the guard, then the call of
    [fetchQuotesFromServer]. [None]: nothing was started. *)
Definition syncQuotes_start (a : app) : app * option sync_cont :=
  if isSyncing a then (a, None)
  else
    let a1 := showSyncStatus SyncingWithServer (set_isSyncing true a) in
    (fetchQuotesFromServer_start a1, Some AwaitFetch).

(** Steps 1-5 of [syncQuotes], from the return of [fetchQuotesFromServer]
    up to the [await] on [postQuotesToServer]. *)
Definition syncQuotes_after_fetch (o : fetch_outcome) (a : app)
  : app * option sync_cont :=
  let '(a1, serverData) := fetchQuotesFromServer_resume o a in
  match serverData with
  | [] => (sync_finally (showSyncStatus NoServerData a1), None)
  | _ =>
      let '(conflicts, newServerQuotes) := detectConflicts (quotes a1) serverData in
      let a2 := match conflicts with
                | [] => a1
                | _ => set_pendingConflicts conflicts a1   (* + showConflictModal *)
                end in
      let a3 := match newServerQuotes with
                | [] => a2
                | _ => saveQuotes (set_quotes (quotes a2 ++ newServerQuotes) a2)
                end in
      (issue_post (quotes a3) a3,
       Some (AwaitPost (length conflicts) (length newServerQuotes)))
  end.

(** The rest of [syncQuotes] after [postQuotesToServer] settled. *)
Definition syncQuotes_after_post (nConflicts nNew : nat) (now : Z) (a : app)
  : app :=
  let a1 := showSyncStatus SyncSuccessful (set_lastSyncTime now a) in
  let a2 :=
    if Nat.eqb nConflicts 0 && Nat.ltb 0 nNew
    then showNotification (MsgSyncAdded nNew) Success a1
    else if Nat.eqb nConflicts 0 && Nat.eqb nNew 0
    then showNotification MsgSyncNoChanges Success a1
    else a1 in
  sync_finally a2.

(** Resuming a suspended cycle; [None] when the event does not settle
    that [await]. *)
Definition sync_resume (k : sync_cont) (ev : sync_event) (a : app)
  : option (app * option sync_cont) :=
  match k, ev with
  | AwaitFetch, EvFetched o => Some (syncQuotes_after_fetch o a)
  | AwaitPost nC nN, EvPosted _ now => Some (syncQuotes_after_post nC nN now a, None)
  | AwaitFetch, EvFetchedThenThrown posts msg =>
      Some (sync_catch msg (fst (fetchQuotesFromServer_resume (FetchOk posts) a)), None)
  | AwaitPost _ _, EvThrown msg => Some (sync_catch msg a, None)
  | _, _ => None
  end.

(* ------------------------------------------------------------------ *)
(** ** Conflict resolver *)

(** [arr[i]] for an integer [i]: [undefined] ([None]) outside [0..len). *)
Definition at_index {A} (l : list A) (i : Z) : option A :=
  if (i <? 0)%Z then None else nth_error l (Z.to_nat i).

(** [arr[n] = x] for [n] inside the array. *)
Fixpoint replace_at {A} (n : nat) (x : A) (l : list A) : list A :=
  match n, l with
  | _, [] => []
  | O, _ :: r => x :: r
  | S n', y :: r => y :: replace_at n' x r
  end.

Fixpoint remove_at {A} (n : nat) (l : list A) : list A :=
  match n, l with
  | _, [] => []
  | O, _ :: r => r
  | S n', y :: r => y :: remove_at n' r
  end.

(** [arr.splice(start, 1)]: a negative [start] counts from the end. *)
Definition splice_one {A} (l : list A) (start : Z) : list A :=
  let len := Z.of_nat (length l) in
  let actualStart :=
    if (start <? 0)%Z then Z.max (len + start) 0 else Z.min start len in
  remove_at (Z.to_nat actualStart) l.

(** [const localIndex = quotes.findIndex(q => q.text === conflict.local.text);
     if (localIndex !== -1) quotes[localIndex] = { ...conflict.server };] *)
Definition replace_with_server (c : conflict) (qs : list quote) : list quote :=
  let localIndex := findIndex (fun q => String.eqb (text q) (text (local c))) qs in
  if Z.eqb localIndex (-1) then qs else replace_at (Z.to_nat localIndex) (server c) qs.

(** [resolveConflict(index, choice)] for an integer [index]. [None]: the
    handler throws a [TypeError] before changing anything (reading
    [conflict.local] of [undefined] inside the [findIndex] callback, which
    only runs when [quotes] is not empty). *)
Definition resolveConflict (index : Z) (choice : string) (a : app) : option app :=
  let pending := pendingConflicts a in
  if (Z.of_nat (length pending) <=? index)%Z then Some a
  else
    let conflict := at_index pending index in
    let updated :=
      if String.eqb choice "server" then
        match conflict with
        | Some c => Some (replace_with_server c (quotes a))
        | None => match quotes a with [] => Some (quotes a) | _ => None end
        end
      else Some (quotes a) in
    match updated with
    | None => None
    | Some qs =>
        let pending' := splice_one pending index in
        let a1 := set_pendingConflicts pending' (set_quotes qs a) in
        match pending' with
        | [] => Some (showNotification MsgConflictsResolved Success
                        (saveQuotes (closeConflictModal a1)))
        | _ => Some a1                      (* showConflictModal(pendingConflicts) *)
        end
    end.

(** [resolveAllConflicts(choice)]. *)
Definition resolveAllConflicts (choice : string) (a : app) : app :=
  if String.eqb choice "server" then
    let qs := fold_left (fun qs c => replace_with_server c qs)
                        (pendingConflicts a) (quotes a) in
    saveQuotes (closeConflictModal
                  (showNotification MsgAllServer Success (set_quotes qs a)))
  else saveQuotes (closeConflictModal (showNotification MsgAllLocal Success a)).

(** The [onclick] handlers [showConflictModal(conflicts)] renders: for the
    conflict at [index], [resolveConflict(index, 'local')] and
    [resolveConflict(index, 'server')]. *)
Definition conflict_buttons (cs : list conflict) : list (Z * string) :=
  flat_map (fun i => [(Z.of_nat i, "local"); (Z.of_nat i, "server")])
           (seq 0 (length cs)).

(* ------------------------------------------------------------------ *)
(** ** Adding, importing, clearing *)

(** [[...new Set(quotes.map(q => q.category))]], first occurrences kept;
    [getUniqueCategories] sorts this list afterwards, which changes
    neither its membership nor its length. *)
Definition unique_categories (qs : list quote) : list string :=
  fold_left (fun acc q => if existsb (String.eqb (category q)) acc
                          then acc else acc ++ [category q]) qs [].

(** [addQuote()] with the raw values of the two input fields. *)
Definition addQuote (inputText inputCategory : string) (a : app) : app :=
  let quoteText := trim inputText in
  let quoteCategory := trim inputCategory in
  if String.eqb quoteText "" || String.eqb quoteCategory "" then
    showNotification MsgEnterBoth Error a
  else
    let isNewCategory :=
      negb (existsb (String.eqb quoteCategory) (unique_categories (quotes a))) in
    let newQuote := mkQuote quoteText quoteCategory None (Some "local") in
    showNotification
      (MsgQuoteAdded (if isNewCategory then Some quoteCategory else None)) Success
      (saveQuotes (set_quotes (quotes a ++ [newQuote]) a)).

#[local] Set Warnings "-register-all".

(** A value produced by [JSON.parse]. *)
Inductive json :=
| JNull
| JBool (b : bool)
| JNum (n : Z)
| JStr (s : string)
| JArr (items : list json)
| JObj (fields : list (string * json)).

(** Property read [v.k]: [None] when it throws (on [null]), [Some None]
    for [undefined]; a repeated key of an object keeps its last value. *)
Definition get_prop (v : json) (k : string) : option (option json) :=
  match v with
  | JNull => None
  | JObj fs => Some (fold_left (fun acc '(k', x) =>
                                  if String.eqb k' k then Some x else acc) fs None)
  | _ => Some None
  end.

Definition truthy (v : option json) : bool :=
  match v with
  | None | Some JNull => false
  | Some (JBool b) => b
  | Some (JNum n) => negb (Z.eqb n 0)
  | Some (JStr s) => negb (String.eqb s "")
  | Some _ => true
  end.

Definition is_string (v : option json) : bool :=
  match v with Some (JStr _) => true | _ => false end.

(** The [filter] callback of [importFromJsonFile], with [&&]
    short-circuiting: [None] when it throws. *)
Definition validQuote (v : json) : option bool :=
  match get_prop v "text" with
  | None => None
  | Some t =>
      if negb (truthy t) then Some false else
      match get_prop v "category" with
      | None => None
      | Some c => Some (truthy c && is_string t && is_string c)
      end
  end.

(** [Array.prototype.filter] with a callback that may throw. *)
Fixpoint js_filter {A} (cb : A -> option bool) (l : list A) : option (list A) :=
  match l with
  | [] => Some []
  | x :: r =>
      match cb x with
      | None => None
      | Some b =>
          match js_filter cb r with
          | None => None
          | Some r' => Some (if b then x :: r' else r')
          end
      end
  end.

Definition str_prop (v : json) (k : string) : option string :=
  match get_prop v k with Some (Some (JStr s)) => Some s | _ => None end.

(** The quote record of an accepted element (its [text], [category], and
    its [id] and [source] when they have the type the app gives them). *)
Definition json_to_quote (v : json) : quote :=
  mkQuote (match str_prop v "text" with Some s => s | None => "" end)
          (match str_prop v "category" with Some s => s | None => "" end)
          (match get_prop v "id" with Some (Some (JNum n)) => Some n | _ => None end)
          (str_prop v "source").

(** [fileReader.onload] of [importFromJsonFile], given the result of
    [JSON.parse] ([None]: it threw). The skipped-count notice, posted by
    [setTimeout] 3.5 s later, is logged right after the success notice. *)
Definition importFromJsonFile (parsed : option json) (a : app) : app :=
  match parsed with
  | None => showNotification (MsgImportError ParseError) Error a
  | Some (JArr importedQuotes) =>
      match js_filter validQuote importedQuotes with
      | None => showNotification (MsgImportError NullElement) Error a
      | Some [] => showNotification (MsgImportError NoValidQuotes) Error a
      | Some validQuotes =>
          let existingCategories := unique_categories (quotes a) in
          let a1 := saveQuotes (set_quotes (quotes a ++ map json_to_quote validQuotes) a) in
          let addedCategories :=
            filter (fun cat => negb (existsb (String.eqb cat) existingCategories))
                   (unique_categories (quotes a1)) in
          let a2 := showNotification
                      (MsgImported (length validQuotes) (length addedCategories))
                      Success a1 in
          if Nat.ltb (length validQuotes) (length importedQuotes)
          then showNotification
                 (MsgSkipped (length importedQuotes - length validQuotes)) Error a2
          else a2
      end
  | Some _ => showNotification (MsgImportError NotArray) Error a
  end.

Definition dq (t c : string) : quote := mkQuote t c None None.

(** A quote as [fetchQuotesFromServer] builds it. *)
Definition sq (t c : string) (n : Z) : quote := mkQuote t c (Some n) (Some "server").

Definition defaultQuotes : list quote := [
  dq "The only way to do great work is to love what you do." "Motivation";
  dq "Life is what happens when you're busy making other plans." "Life";
  dq "The future belongs to those who believe in the beauty of their dreams." "Inspiration";
  dq "It is during our darkest moments that we must focus to see the light." "Motivation";
  dq "The only impossible journey is the one you never begin." "Inspiration";
  dq "In the end, we will remember not the words of our enemies, but the silence of our friends." "Wisdom";
  dq "Success is not final, failure is not fatal: it is the courage to continue that counts." "Success";
  dq "Believe you can and you're halfway there." "Motivation";
  dq "The greatest glory in living lies not in never falling, but in rising every time we fall." "Perseverance";
  dq "Your time is limited, don't waste it living someone else's life." "Life"
].

(** [clearAllData()], [confirmed] being the answer to [confirm(...)]. *)
Definition clearAllData (confirmed : bool) (a : app) : app :=
  if confirmed
  then showNotification MsgCleared Success (saveQuotes (set_quotes defaultQuotes a))
  else a.

(* ------------------------------------------------------------------ *)
(** ** The page's event loop *)

(** The handlers that reach the quote store, other than the sync cycle. *)
Inductive user_op :=
| OpAddQuote (inputText inputCategory : string)
| OpImport (parsed : option json)
| OpResolveConflict (index : Z) (choice : string)
| OpResolveAllConflicts (choice : string)
| OpCloseConflictModal
| OpClearAllData (confirmed : bool).

(** A handler that throws leaves the state as it was (see
    [resolveConflict]). *)
Definition run_user_op (op : user_op) (a : app) : app :=
  match op with
  | OpAddQuote t c => addQuote t c a
  | OpImport p => importFromJsonFile p a
  | OpResolveConflict i ch =>
      match resolveConflict i ch a with Some a' => a' | None => a end
  | OpResolveAllConflicts ch => resolveAllConflicts ch a
  | OpCloseConflictModal => closeConflictModal a
  | OpClearAllData b => clearAllData b a
  end.

(** The page: its state and the suspended [syncQuotes] invocations. *)
Record world := mkWorld {
  wapp : app;
  inflight : list sync_cont
}.

Inductive page_event :=
| CallSync                              (* sync button, interval timer, load *)
| Resume (i : nat) (ev : sync_event)    (* the i-th suspended cycle resumes *)
| User (op : user_op).

Definition opt_list {A} (o : option A) : list A :=
  match o with Some x => [x] | None => [] end.

Definition page_step (w : world) (e : page_event) : option world :=
  match e with
  | CallSync =>
      let '(a', k) := syncQuotes_start (wapp w) in
      Some (mkWorld a' (inflight w ++ opt_list k))
  | Resume i ev =>
      match nth_error (inflight w) i with
      | None => None
      | Some k =>
          match sync_resume k ev (wapp w) with
          | None => None
          | Some (a', k') => Some (mkWorld a' (remove_at i (inflight w) ++ opt_list k'))
          end
      end
  | User op => Some (mkWorld (run_user_op op (wapp w)) (inflight w))
  end.

(** States reached from a page with no sync running. *)
Inductive reachable : world -> Prop :=
| reach_init a : isSyncing a = false -> reachable (mkWorld a [])
| reach_step w e w' : reachable w -> page_step w e = Some w' -> reachable w'.

(** The guard invariant: no cycle in flight and the flag down, or exactly
    one cycle in flight and the flag up. *)
Definition guard_inv (w : world) : Prop :=
  (inflight w = [] /\ isSyncing (wapp w) = false) \/
  (exists k, inflight w = [k] /\ isSyncing (wapp w) = true).

(** The state when the page has loaded its quotes. *)
Definition initial_app (qs : list quote) : app :=
  mkApp qs [] false None [] None [] 0 [] false.

(* ------------------------------------------------------------------ *)
(** ** Categories and the filter *)

(** The order [Array.prototype.sort] uses on strings. *)
Definition str_lt (x y : string) : Prop := String.compare x y = Lt.

(** One step of an insertion sort under the default comparison of
    [Array.prototype.sort] (code units, a proper prefix first). *)
Fixpoint insert_sorted (x : string) (l : list string) : list string :=
  match l with
  | [] => [x]
  | y :: r => if String.ltb y x then y :: insert_sorted x r else x :: y :: r
  end.

(** [arr.sort()] on strings. The list sorted here never holds a string
    twice, and on such a list every sort by this comparison returns the
    same order. *)
Definition sort_strings (l : list string) : list string :=
  fold_left (fun acc x => insert_sorted x acc) l [].

(** [getUniqueCategories()]. *)
Definition getUniqueCategories (qs : list quote) : list string :=
  sort_strings (unique_categories qs).

(** [populateCategories()] with [currentSelection], the value of the
    dropdown before it is rebuilt: the value of the rebuilt dropdown and
    the new [selectedCategory]. *)
Definition populateCategories (currentSelection selectedCategory : string)
    (qs : list quote) : string * string :=
  let categories := getUniqueCategories qs in
  if negb (String.eqb currentSelection "")
     && (String.eqb currentSelection "all"
         || existsb (String.eqb currentSelection) categories)
  then (currentSelection, selectedCategory)
  else ("all", "all").

(** [getFilteredQuotes()]. *)
Definition getFilteredQuotes (selectedCategory : string) (qs : list quote)
  : list quote :=
  if String.eqb selectedCategory "all" then qs
  else filter (fun q => String.eqb (category q) selectedCategory) qs.

(* ------------------------------------------------------------------ *)
(** ** Serialisation and export *)

(** The value [JSON.stringify] writes for a quote object: [text] and
    [category], then [id] and [source] when the object has them. *)
Definition quote_to_json (q : quote) : json :=
  JObj ([("text", JStr (text q)); ("category", JStr (category q))]
        ++ match id q with Some n => [("id", JNum n)] | None => [] end
        ++ match source q with Some s => [("source", JStr s)] | None => [] end).

Definition quotes_json (qs : list quote) : json := JArr (map quote_to_json qs).

(** What [exportToJsonFile()] produces: nothing for an empty store ('No
    quotes to export!'), otherwise a file holding [JSON.stringify(quotes,
    null, 2)], given here as the value [JSON.parse] reads back from it
    (the indentation does not change that value). *)
Inductive export_result :=
| ExportEmpty
| ExportFile (contents : json).

Definition exportToJsonFile (qs : list quote) : export_result :=
  match qs with
  | [] => ExportEmpty
  | _ => ExportFile (quotes_json qs)
  end.

(* ------------------------------------------------------------------ *)
(** ** Periodic sync *)

(** The timers: [syncInterval], the intervals registered with the browser
    (handle and period in ms), and the next handle [setInterval] returns
    (browsers hand out positive handles). *)
Record timers := mkTimers {
  syncInterval : option nat;
  activeIntervals : list (nat * Z);
  nextHandle : nat
}.

(** [if (syncInterval)]: a handle is truthy unless it is 0. *)
Definition handle_truthy (h : option nat) : bool :=
  match h with Some n => negb (Nat.eqb n 0) | None => false end.

Definition clearInterval (h : nat) (t : timers) : timers :=
  mkTimers (syncInterval t)
           (filter (fun e => negb (Nat.eqb (fst e) h)) (activeIntervals t))
           (nextHandle t).

(** [startPeriodicSync(intervalMinutes)]. *)
Definition startPeriodicSync (intervalMinutes : Z) (t : timers) : timers :=
  let t1 := match syncInterval t with
            | Some h => if handle_truthy (Some h) then clearInterval h t else t
            | None => t
            end in
  let h := nextHandle t1 in
  mkTimers (Some h) (activeIntervals t1 ++ [(h, (intervalMinutes * 60 * 1000)%Z)])
           (S h).

(** [stopPeriodicSync()]. *)
Definition stopPeriodicSync (t : timers) : timers :=
  match syncInterval t with
  | Some h => if handle_truthy (Some h)
              then let t1 := clearInterval h t in
                   mkTimers None (activeIntervals t1) (nextHandle t1)
              else t
  | None => t
  end.

Inductive timer_op :=
| StartSync (intervalMinutes : Z)
| StopSync.

Definition run_timer_op (t : timers) (op : timer_op) : timers :=
  match op with
  | StartSync m => startPeriodicSync m t
  | StopSync => stopPeriodicSync t
  end.

(** The timers when the script starts: [let syncInterval = null]. *)
Definition initial_timers : timers := mkTimers None [] 1.

(** The timer invariant: handles are positive, and the registered
    intervals are none when [syncInterval] is empty and exactly the one it
    holds otherwise. *)
Definition timer_inv (t : timers) : Prop :=
  (1 <= nextHandle t)%nat /\
  match syncInterval t with
  | None => activeIntervals t = []
  | Some h => (0 < h < nextHandle t)%nat /\
              exists m, activeIntervals t = [(h, (m * 60 * 1000)%Z)]
  end.

(** Clicking the first "Keep Local"/"Use Server" button [n] times. *)
Fixpoint resolve_first (n : nat) (choice : string) (a : app) : option app :=
  match n with
  | O => Some a
  | S n' =>
      match resolveConflict 0 choice a with
      | Some a' => resolve_first n' choice a'
      | None => None
      end
  end.

(* ------------------------------------------------------------------ *)
(** ** Classification of a remote quote *)

Inductive verdict :=
| VNew
| VIgnore
| VConflict (l : quote).

(** The branch [detectConflicts] takes for one remote quote. *)
Definition classify (quotes : list quote) (s : quote) : verdict :=
  match find (fun q => String.eqb (normalize (text q)) (normalize (text s))) quotes with
  | None => VNew
  | Some l => if String.eqb (category l) (category s) then VIgnore else VConflict l
  end.

(** Spec side: [l] is the local quote the search finds for [s], the first
    one whose text, trimmed and case-folded, equals that of [s]. *)
Definition first_match (quotes : list quote) (s l : quote) : Prop :=
  exists pre post,
    quotes = pre ++ l :: post /\
    normalize (text l) = normalize (text s) /\
    Forall (fun q => normalize (text q) <> normalize (text s)) pre.

(** Spec side: the three classes of a remote quote. *)
Inductive remote_class (quotes : list quote) (s : quote) : verdict -> Prop :=
| class_new :
    Forall (fun q => normalize (text q) <> normalize (text s)) quotes ->
    remote_class quotes s VNew
| class_ignore l :
    first_match quotes s l -> category l = category s ->
    remote_class quotes s VIgnore
| class_conflict l :
    first_match quotes s l -> category l <> category s ->
    remote_class quotes s (VConflict l).

(* ------------------------------------------------------------------ *)
(** * Properties *)

(** [saveQuotes] only adds its error notice. *)
Lemma saveQuotes_quotes a : quotes (saveQuotes a) = quotes a.
Proof. unfold saveQuotes. now destruct (storageFull a). Qed.

Lemma saveQuotes_pendingConflicts a : pendingConflicts (saveQuotes a) = pendingConflicts a.
Proof. unfold saveQuotes. now destruct (storageFull a). Qed.

Lemma saveQuotes_isSyncing a : isSyncing (saveQuotes a) = isSyncing a.
Proof. unfold saveQuotes. now destruct (storageFull a). Qed.

Lemma saveQuotes_lastSyncTime a : lastSyncTime (saveQuotes a) = lastSyncTime a.
Proof. unfold saveQuotes. now destruct (storageFull a). Qed.

Lemma saveQuotes_serverQuotes a : serverQuotes (saveQuotes a) = serverQuotes a.
Proof. unfold saveQuotes. now destruct (storageFull a). Qed.

Lemma saveQuotes_syncStatus a : syncStatus (saveQuotes a) = syncStatus a.
Proof. unfold saveQuotes. now destruct (storageFull a). Qed.

Lemma saveQuotes_fetchesIssued a : fetchesIssued (saveQuotes a) = fetchesIssued a.
Proof. unfold saveQuotes. now destruct (storageFull a). Qed.

Lemma saveQuotes_postsIssued a : postsIssued (saveQuotes a) = postsIssued a.
Proof. unfold saveQuotes. now destruct (storageFull a). Qed.

Lemma saveQuotes_storageFull a : storageFull (saveQuotes a) = storageFull a.
Proof. unfold saveQuotes. now destruct (storageFull a) eqn:E. Qed.

(** Pushing the field projections through [saveQuotes]. *)
Ltac save_simpl :=
  simpl;
  rewrite ?saveQuotes_quotes, ?saveQuotes_pendingConflicts, ?saveQuotes_isSyncing,
    ?saveQuotes_lastSyncTime, ?saveQuotes_serverQuotes, ?saveQuotes_syncStatus,
    ?saveQuotes_fetchesIssued, ?saveQuotes_postsIssued, ?saveQuotes_storageFull;
  simpl.

Lemma saveQuotes_notifications a :
  notifications (saveQuotes a) = notifications a ++ save_notices a.
Proof.
  unfold saveQuotes, save_notices. destruct (storageFull a); [reflexivity|].
  now rewrite app_nil_r.
Qed.


Lemma find_Some_iff {A} (p : A -> bool) (l : list A) (x : A) :
  find p l = Some x <->
  exists pre post, l = pre ++ x :: post /\ p x = true /\
                   Forall (fun y => p y = false) pre.
Proof.
  induction l as [|y r IH]; simpl.
  - split; [discriminate|]. intros (pre & post & E & _). destruct pre; discriminate.
  - destruct (p y) eqn:Py; split.
    + intros H; injection H as <-. exists [], r. auto.
    + intros ([|z pre] & post & E & Px & F); simpl in E; injection E as E1 E2.
      * now subst.
      * subst z. inversion F; congruence.
    + intros H. apply IH in H as (pre & post & -> & Px & F).
      exists (y :: pre), post. auto.
    + intros ([|z pre] & post & E & Px & F); simpl in E; injection E as E1 E2.
      * congruence.
      * subst. apply IH. inversion F; subst. eauto.
Qed.

Lemma find_None_iff {A} (p : A -> bool) (l : list A) :
  find p l = None <-> Forall (fun y => p y = false) l.
Proof.
  induction l as [|y r IH]; simpl.
  - split; auto.
  - destruct (p y) eqn:Py; split.
    + discriminate.
    + intros F; inversion F; congruence.
    + intros H. constructor; [assumption | now apply IH].
    + intros F; inversion F; subst; now apply IH.
Qed.

Lemma Forall_eqb_false (f : quote -> string) (k : string) (l : list quote) :
  Forall (fun y => String.eqb (f y) k = false) l <-> Forall (fun y => f y <> k) l.
Proof.
  split; intros H; eapply Forall_impl; try eassumption; intros y Hy; simpl in *.
  - now apply String.eqb_neq.
  - now apply String.eqb_neq.
Qed.

Lemma classify_spec (quotes : list quote) (s : quote) (v : verdict) :
  remote_class quotes s v <-> classify quotes s = v.
Proof.
  unfold classify.
  set (p := fun q => String.eqb (normalize (text q)) (normalize (text s))).
  split.
  - intros [F | l (pre & post & E & N & F) C | l (pre & post & E & N & F) C].
    + assert (find p quotes = None) as ->; [|reflexivity].
      apply find_None_iff, Forall_eqb_false, F.
    + assert (find p quotes = Some l) as ->.
      { apply find_Some_iff. exists pre, post. split; [exact E|]. split.
        - unfold p; now apply String.eqb_eq.
        - now apply Forall_eqb_false. }
      now rewrite (proj2 (String.eqb_eq _ _) C).
    + assert (find p quotes = Some l) as ->.
      { apply find_Some_iff. exists pre, post. split; [exact E|]. split.
        - unfold p; now apply String.eqb_eq.
        - now apply Forall_eqb_false. }
      now rewrite (proj2 (String.eqb_neq _ _) C).
  - destruct (find p quotes) as [l|] eqn:Fd.
    + apply find_Some_iff in Fd as (pre & post & E & N & F).
      assert (first_match quotes s l) as M.
      { exists pre, post. split; [exact E|]. split.
        - now apply String.eqb_eq.
        - now apply Forall_eqb_false. }
      destruct (String.eqb (category l) (category s)) eqn:C; intros <-.
      * apply class_ignore with l; [exact M | now apply String.eqb_eq].
      * apply class_conflict; [exact M | now apply String.eqb_neq].
    + intros <-. apply class_new. apply Forall_eqb_false, find_None_iff, Fd.
Qed.

Lemma detectConflicts_fold (quotes serverData : list quote) cs ns :
  fold_left
    (fun '(conflicts, newServerQuotes) serverQuote =>
       let localMatch :=
         find (fun q => String.eqb (normalize (text q))
                                   (normalize (text serverQuote))) quotes in
       match localMatch with
       | Some l =>
           if negb (String.eqb (category l) (category serverQuote))
           then (conflicts ++ [mkConflict l serverQuote], newServerQuotes)
           else (conflicts, newServerQuotes)
       | None => (conflicts, newServerQuotes ++ [serverQuote])
       end)
    serverData (cs, ns)
  = (cs ++ flat_map (fun s => match classify quotes s with
                              | VConflict l => [mkConflict l s] | _ => [] end) serverData,
     ns ++ filter (fun s => match classify quotes s with
                            | VNew => true | _ => false end) serverData).
Proof.
  revert cs ns.
  induction serverData as [|s r IH]; intros cs ns; simpl.
  - now rewrite !app_nil_r.
  - unfold classify.
    destruct (find _ quotes) as [l|].
    + destruct (String.eqb (category l) (category s)); simpl;
        rewrite IH; now rewrite <- ?app_assoc.
    + rewrite IH. now rewrite <- app_assoc.
Qed.

Example normalize_example : normalize "  HeLLo World " = "hello world".
Proof. reflexivity. Qed.

Example detectConflicts_example :
  detectConflicts [dq "Hello" "Life"; dq "Keep going" "Motivation"]
                  [sq " hello" "Life" 1; sq "KEEP GOING " "Server Wisdom" 2;
                   sq "Fresh" "Server Insight" 3]
  = ([mkConflict (dq "Keep going" "Motivation") (sq "KEEP GOING " "Server Wisdom" 2)],
     [sq "Fresh" "Server Insight" 3]).
Proof. reflexivity. Qed.

(** C1. Every remote quote of a fetched snapshot falls into exactly one
    class, decided against the local store by its trimmed, case-folded
    text: no local quote with that text: "new"; the local quote found
    (the first with that text) has the same category: ignored, neither
    reported nor re-added; it has another category: a conflict pairing
    the local and the server quote. [detectConflicts] returns exactly the
    conflicts and the new quotes so classified, in snapshot order; it only
    reads the store, which it receives as an argument. *)
Theorem detectConflicts_three_way (quotes serverData : list quote) :
  (forall s v, remote_class quotes s v <-> classify quotes s = v) /\
  detectConflicts quotes serverData =
    (flat_map (fun s => match classify quotes s with
                        | VConflict l => [mkConflict l s] | _ => [] end) serverData,
     filter (fun s => match classify quotes s with
                      | VNew => true | _ => false end) serverData).
Proof.
  split.
  - intros s v. apply classify_spec.
  - unfold detectConflicts. now rewrite detectConflicts_fold.
Qed.

(* ------------------------------------------------------------------ *)
(** ** The merge step of a sync cycle *)

Lemma quotes_showSyncStatus st a : quotes (showSyncStatus st a) = quotes a.
Proof. reflexivity. Qed.

Lemma syncQuotes_start_quotes a : quotes (fst (syncQuotes_start a)) = quotes a.
Proof. unfold syncQuotes_start. now destruct (isSyncing a). Qed.

Lemma syncQuotes_after_fetch_quotes o a a' k :
  syncQuotes_after_fetch o a = (a', Some k) ->
  quotes a' = quotes a ++ snd (detectConflicts (quotes a) (snd (fetchQuotesFromServer_resume o a))).
Proof.
  unfold syncQuotes_after_fetch.
  destruct (fetchQuotesFromServer_resume o a) as [a1 serverData] eqn:F.
  assert (quotes a1 = quotes a) as Q1.
  { destruct o; simpl in F; injection F as <- _; reflexivity. }
  simpl. destruct serverData as [|s r]; [discriminate|].
  destruct (detectConflicts (quotes a1) (s :: r)) as [conflicts news] eqn:D.
  rewrite <- Q1, D. intros H; injection H as <- _. simpl.
  destruct conflicts, news; simpl; rewrite ?saveQuotes_quotes, ?app_nil_r; reflexivity.
Qed.

(** C2. A sync cycle that completes (fetch delivered records, the post
    settled) leaves the store equal to the store it started from followed
    by the remote quotes classified "new", in classification order: its
    length grows by exactly their number and no quote already present,
    conflicting ones included, is modified by the cycle. *)
Theorem sync_cycle_appends_new (a a1 a2 a3 : app) (posts : list post) (k : sync_cont)
    (ok : bool) (now : Z) :
  syncQuotes_start a = (a1, Some AwaitFetch) ->
  sync_resume AwaitFetch (EvFetched (FetchOk posts)) a1 = Some (a2, Some k) ->
  sync_resume k (EvPosted ok now) a2 = Some (a3, None) ->
  let newServerQuotes := snd (detectConflicts (quotes a) (map post_to_quote posts)) in
  quotes a3 = quotes a ++ newServerQuotes /\
  length (quotes a3) = length (quotes a) + length newServerQuotes.
Proof.
  intros S F P newServerQuotes.
  assert (quotes a1 = quotes a) as Q1.
  { now rewrite <- (syncQuotes_start_quotes a), S. }
  simpl in F. injection F as F.
  apply syncQuotes_after_fetch_quotes in F.
  destruct k as [|nC nN]; simpl in P; [discriminate|]. injection P as <-.
  assert (quotes (syncQuotes_after_post nC nN now a2) = quotes a2) as Q3.
  { unfold syncQuotes_after_post.
    destruct (Nat.eqb nC 0 && Nat.ltb 0 nN); [reflexivity|].
    destruct (Nat.eqb nC 0 && Nat.eqb nN 0); reflexivity. }
  rewrite Q3, F, Q1. simpl.
  split; [reflexivity | now rewrite length_app].
Qed.

Lemma sync_cycle_appends_new_witness :
  exists a1 a2 a3 k,
    syncQuotes_start (initial_app [dq "x" "Life"]) = (a1, Some AwaitFetch) /\
    sync_resume AwaitFetch
      (EvFetched (FetchOk [mkPost 1 "X " 2; mkPost 2 "fresh" 1])) a1 = Some (a2, Some k) /\
    sync_resume k (EvPosted true 0) a2 = Some (a3, None) /\
    length (quotes a3) = 1 + 1.
Proof.
  do 4 eexists.
  split; [reflexivity|]. split; [reflexivity|]. split; [reflexivity|].
  exact (proj2 (sync_cycle_appends_new (initial_app [dq "x" "Life"]) _ _ _
                  [mkPost 1 "X " 2; mkPost 2 "fresh" 1] _ true 0
                  eq_refl eq_refl eq_refl)).
Defined.

(* ------------------------------------------------------------------ *)
(** ** The in-progress guard *)

Lemma run_user_op_isSyncing op a : isSyncing (run_user_op op a) = isSyncing a.
Proof.
  destruct op as [t c | p | i ch | ch | | b]; simpl.
  - unfold addQuote.
    destruct (String.eqb (trim t) "" || String.eqb (trim c) ""); (save_simpl; reflexivity).
  - unfold importFromJsonFile.
    destruct p as [[| | | | items |]|]; try (save_simpl; reflexivity).
    destruct (js_filter validQuote items) as [[|v vs]|]; try (save_simpl; reflexivity).
    cbv zeta. destruct (Nat.ltb _ _); (save_simpl; reflexivity).
  - unfold resolveConflict.
    destruct (Z.of_nat (length (pendingConflicts a)) <=? i)%Z; [(save_simpl; reflexivity)|].
    cbv zeta.
    destruct (String.eqb ch "server");
      [destruct (at_index (pendingConflicts a) i); [|destruct (quotes a)]|];
      try (save_simpl; reflexivity);
      destruct (splice_one (pendingConflicts a) i); (save_simpl; reflexivity).
  - unfold resolveAllConflicts. destruct (String.eqb ch "server"); (save_simpl; reflexivity).
  - (save_simpl; reflexivity).
  - unfold clearAllData. destruct b; (save_simpl; reflexivity).
Qed.

Lemma syncQuotes_after_fetch_isSyncing o a a' k :
  syncQuotes_after_fetch o a = (a', k) ->
  isSyncing a' = match k with None => false | Some _ => isSyncing a end.
Proof.
  unfold syncQuotes_after_fetch.
  destruct (fetchQuotesFromServer_resume o a) as [a1 serverData] eqn:F.
  assert (isSyncing a1 = isSyncing a) as Q1.
  { destruct o; simpl in F; injection F as <- _; reflexivity. }
  destruct serverData as [|s r].
  - intros H; injection H as <- <-. reflexivity.
  - destruct (detectConflicts (quotes a1) (s :: r)) as [conflicts news].
    intros H; injection H as <- <-.
    destruct conflicts, news; save_simpl; exact Q1.
Qed.

Lemma sync_resume_isSyncing k ev a a' k' :
  sync_resume k ev a = Some (a', k') ->
  isSyncing a' = match k' with None => false | Some _ => isSyncing a end.
Proof.
  destruct k as [|nC nN], ev as [o|ok now|ps msg|msg]; simpl; try discriminate.
  - destruct (syncQuotes_after_fetch o a) as [b l] eqn:E.
    intros H; injection H as <- <-. exact (syncQuotes_after_fetch_isSyncing o a b l E).
  - intros H; injection H as <- <-. reflexivity.
  - intros H; injection H as <- <-. unfold syncQuotes_after_post.
    destruct (Nat.eqb nC 0 && Nat.ltb 0 nN); [reflexivity|].
    destruct (Nat.eqb nC 0 && Nat.eqb nN 0); reflexivity.
  - intros H; injection H as <- <-. reflexivity.
Qed.

Lemma page_step_guard_inv w e w' :
  guard_inv w -> page_step w e = Some w' -> guard_inv w'.
Proof.
  intros Inv. destruct e as [| i ev | op]; simpl.
  - unfold syncQuotes_start.
    destruct Inv as [[-> F] | (k & -> & T)].
    + rewrite F. intros H; injection H as <-. right. exists AwaitFetch. split; reflexivity.
    + rewrite T. intros H; injection H as <-. right. exists k. split; [reflexivity | exact T].
  - destruct Inv as [[-> F] | (k & -> & T)].
    + destruct i; discriminate.
    + destruct i as [|i]; [|destruct i; discriminate]. simpl.
      destruct (sync_resume k ev (wapp w)) as [[a' k']|] eqn:R; [|discriminate].
      intros H; injection H as <-. apply sync_resume_isSyncing in R.
      destruct k' as [k'|]; simpl in *.
      * right. exists k'. split; [reflexivity | simpl; congruence].
      * left. split; [reflexivity | exact R].
  - intros H; injection H as <-. unfold guard_inv; simpl.
    now rewrite run_user_op_isSyncing.
Qed.

(** C4. At most one sync runs at a time. A call of [syncQuotes] while the
    flag is up returns at once: same state, no fetch issued (the fetch
    counter, the store and the pending queue all unchanged). On every page
    reached from a page with no sync running, at most one cycle is in
    flight and the flag is up exactly while one is. Every step that ends
    a cycle, by the early return, normally or by an exception, lowers the
    flag, so once no cycle is in flight the next call issues a fetch. *)
Theorem sync_guard_at_most_one :
  (forall a, isSyncing a = true -> syncQuotes_start a = (a, None)) /\
  (forall w, reachable w ->
     (inflight w = [] /\ isSyncing (wapp w) = false) \/
     (exists k, inflight w = [k] /\ isSyncing (wapp w) = true)) /\
  (forall k ev a a', sync_resume k ev a = Some (a', None) -> isSyncing a' = false) /\
  (forall w, reachable w -> inflight w = [] ->
     exists a', syncQuotes_start (wapp w) = (a', Some AwaitFetch) /\
                fetchesIssued a' = S (fetchesIssued (wapp w))).
Proof.
  assert (Reach : forall w, reachable w -> guard_inv w).
  { intros w R. induction R as [a F | w e w' R IH S].
    - left. split; [reflexivity | exact F].
    - eapply page_step_guard_inv; eassumption. }
  split; [|split; [|split]].
  - intros a T. unfold syncQuotes_start. now rewrite T.
  - exact Reach.
  - intros k ev a a' R. exact (sync_resume_isSyncing k ev a a' None R).
  - intros w R E. destruct (Reach w R) as [[_ F] | (k & E' & _)].
    + unfold syncQuotes_start. rewrite F. eexists. split; reflexivity.
    + congruence.
Qed.

(* ------------------------------------------------------------------ *)
(** ** A fetch that yields nothing *)

(** C5. When the fetch fails (the transport reports a non-success status
    or throws), the cycle ends at the fetch: store, pending queue,
    last-sync time and posts sent are unchanged, nothing is merged, no
    post is issued, the failure notification is shown, and the flag is
    lowered. *)
Theorem fetch_failure_aborts_sync (a : app) (e : fetch_error) :
  exists a',
    sync_resume AwaitFetch (EvFetched (FetchFailed e)) a = Some (a', None) /\
    quotes a' = quotes a /\
    pendingConflicts a' = pendingConflicts a /\
    lastSyncTime a' = lastSyncTime a /\
    postsIssued a' = postsIssued a /\
    notifications a' = notifications a ++ [(MsgFetchFailed e, Error)] /\
    isSyncing a' = false.
Proof.
  eexists. split; [reflexivity|]. repeat split.
Qed.

(** C10. A fetch that yields an empty snapshot, whether the transport
    succeeded with zero records or failed, ends the cycle in the same
    way: the store, the pending queue, the last-sync time and the posts
    sent are unchanged, no post is issued, the status line shows the
    error 'No server data available', and the flag is lowered. *)
Theorem empty_snapshot_like_failure (a : app) (o : fetch_outcome) :
  (o = FetchOk [] \/ exists e, o = FetchFailed e) ->
  exists a',
    sync_resume AwaitFetch (EvFetched o) a = Some (a', None) /\
    quotes a' = quotes a /\
    pendingConflicts a' = pendingConflicts a /\
    lastSyncTime a' = lastSyncTime a /\
    postsIssued a' = postsIssued a /\
    syncStatus a' = Some NoServerData /\
    isSyncing a' = false.
Proof.
  intros [-> | (e & ->)]; eexists; split; try reflexivity; repeat split.
Qed.

Lemma empty_snapshot_like_failure_witness :
  (exists a',
    sync_resume AwaitFetch (EvFetched (FetchOk [])) (initial_app defaultQuotes)
      = Some (a', None) /\
    quotes a' = defaultQuotes /\ pendingConflicts a' = [] /\
    lastSyncTime a' = None /\ postsIssued a' = [] /\
    syncStatus a' = Some NoServerData /\ isSyncing a' = false) /\
  (exists a',
    sync_resume AwaitFetch (EvFetched (FetchFailed (HttpError 500)))
      (initial_app defaultQuotes) = Some (a', None) /\
    quotes a' = defaultQuotes /\ pendingConflicts a' = [] /\
    lastSyncTime a' = None /\ postsIssued a' = [] /\
    syncStatus a' = Some NoServerData /\ isSyncing a' = false).
Proof.
  split.
  - exact (empty_snapshot_like_failure (initial_app defaultQuotes) (FetchOk [])
             (or_introl eq_refl)).
  - exact (empty_snapshot_like_failure (initial_app defaultQuotes)
             (FetchFailed (HttpError 500)) (or_intror (ex_intro _ _ eq_refl))).
Defined.

(* ------------------------------------------------------------------ *)
(** ** Keeping the local side of every conflict *)

(** C7. After a sync merged its snapshot, [resolveAllConflicts('local')]
    empties the pending queue and leaves every quote that was in the
    store before the conflicts were computed at its place with its text
    and category (the store only carries, after them, the new quotes the
    same sync appended); it changes no quote itself. *)
Theorem resolveAll_local_keeps_store (a a1 : app) (posts : list post) (k : sync_cont) :
  sync_resume AwaitFetch (EvFetched (FetchOk posts)) a = Some (a1, Some k) ->
  let a2 := resolveAllConflicts "local" a1 in
  pendingConflicts a2 = [] /\
  quotes a2 = quotes a1 /\
  (forall i q, nth_error (quotes a) i = Some q -> nth_error (quotes a2) i = Some q).
Proof.
  intros F a2. simpl in F. injection F as F.
  apply syncQuotes_after_fetch_quotes in F.
  unfold a2, resolveAllConflicts. save_simpl.
  split; [reflexivity|]. split; [reflexivity|].
  intros i q N. rewrite F. rewrite nth_error_app1; [exact N|].
  apply nth_error_Some. congruence.
Qed.

Lemma resolveAll_local_keeps_store_witness :
  exists a1 k,
    sync_resume AwaitFetch (EvFetched (FetchOk [mkPost 1 "x" 2; mkPost 2 "y" 1]))
      (initial_app [dq "x" "Life"]) = Some (a1, Some k) /\
    pendingConflicts (resolveAllConflicts "local" a1) = [].
Proof.
  do 2 eexists. split; [reflexivity|].
  exact (proj1 (resolveAll_local_keeps_store (initial_app [dq "x" "Life"]) _
                  [mkPost 1 "x" 2; mkPost 2 "y" 1] _ eq_refl)).
Defined.

(* ------------------------------------------------------------------ *)
(** ** Taking the server side *)

Lemma replace_at_length {A} n (x : A) l : length (replace_at n x l) = length l.
Proof.
  revert n; induction l as [|y r IH]; intros [|n]; simpl; auto.
Qed.

Lemma replace_at_In_new {A} n (x z : A) l :
  nth_error l n = Some z -> In x (replace_at n x l).
Proof.
  revert n; induction l as [|y r IH]; intros [|n]; simpl; try discriminate.
  - now left.
  - intros N. right. eapply IH, N.
Qed.

Lemma replace_at_In_keep {A} n (x y : A) l :
  In y l -> nth_error l n <> Some y -> In y (replace_at n x l).
Proof.
  revert n; induction l as [|z r IH]; intros [|n]; simpl; try tauto.
  - intros [-> | I] N; [congruence | right; exact I].
  - intros [-> | I] N; [now left | right; now apply IH].
Qed.

Lemma replace_at_In_inv {A} n (x y : A) l :
  In y (replace_at n x l) -> In y l \/ y = x.
Proof.
  revert n; induction l as [|z r IH]; intros [|n]; simpl; try tauto.
  - intros [-> | I]; [now right | left; now right].
  - intros [-> | I]; [left; now left|]. destruct (IH n I); tauto.
Qed.

Lemma find_pos_nth {A} (p : A -> bool) l i :
  find_pos p l = Some i -> exists y, nth_error l i = Some y /\ p y = true.
Proof.
  revert i; induction l as [|y r IH]; intros i; simpl; [discriminate|].
  destruct (p y) eqn:P.
  - intros H; injection H as <-. now exists y.
  - destruct (find_pos p r) as [j|] eqn:F; simpl; [|discriminate].
    intros H; injection H as <-. simpl. now apply IH.
Qed.

Lemma find_pos_None {A} (p : A -> bool) l :
  find_pos p l = None -> forall y, In y l -> p y = false.
Proof.
  induction l as [|y r IH]; simpl; [tauto|].
  destruct (p y) eqn:P; [discriminate|].
  destruct (find_pos p r); simpl; [discriminate|].
  intros _ z [<- | I]; auto.
Qed.

(** [replace_with_server] as a position update. *)
Lemma replace_with_server_eq c qs :
  replace_with_server c qs =
  match find_pos (fun q => String.eqb (text q) (text (local c))) qs with
  | Some i => replace_at i (server c) qs
  | None => qs
  end.
Proof.
  unfold replace_with_server, findIndex.
  destruct (find_pos _ qs) as [i|]; [|reflexivity].
  rewrite Nat2Z.id. now destruct i.
Qed.

Lemma replace_with_server_length c qs :
  length (replace_with_server c qs) = length qs.
Proof.
  rewrite replace_with_server_eq.
  destruct (find_pos _ qs); [apply replace_at_length | reflexivity].
Qed.

Lemma replace_with_server_In_server c qs :
  (exists q, In q qs /\ text q = text (local c)) ->
  In (server c) (replace_with_server c qs).
Proof.
  intros (q & I & T). rewrite replace_with_server_eq.
  destruct (find_pos _ qs) as [i|] eqn:F.
  - apply find_pos_nth in F as (y & N & _). eapply replace_at_In_new, N.
  - apply find_pos_None with (y := q) in F; [|exact I].
    apply String.eqb_neq in F. congruence.
Qed.

Lemma replace_with_server_In_keep c qs y :
  In y qs -> text y <> text (local c) -> In y (replace_with_server c qs).
Proof.
  intros I T. rewrite replace_with_server_eq.
  destruct (find_pos _ qs) as [i|] eqn:F; [|exact I].
  apply replace_at_In_keep; [exact I|].
  apply find_pos_nth in F as (z & N & P). rewrite N.
  intros E; injection E as ->. apply String.eqb_eq in P. contradiction.
Qed.

Lemma fold_replace_In_keep cs qs y :
  In y qs -> (forall c, In c cs -> text y <> text (local c)) ->
  In y (fold_left (fun qs c => replace_with_server c qs) cs qs).
Proof.
  revert qs; induction cs as [|c cs IH]; intros qs I T; simpl; [exact I|].
  apply IH.
  - apply replace_with_server_In_keep; [exact I | apply T; now left].
  - intros c' I'. apply T. now right.
Qed.

Lemma fold_replace_length cs qs :
  length (fold_left (fun qs c => replace_with_server c qs) cs qs) = length qs.
Proof.
  revert qs; induction cs as [|c cs IH]; intros qs; simpl; [reflexivity|].
  now rewrite IH, replace_with_server_length.
Qed.

Lemma fold_replace_server cs qs :
  NoDup (map (fun c => text (local c)) cs) ->
  (forall c1 c2, In c1 cs -> In c2 cs -> text (server c1) = text (local c2) -> c1 = c2) ->
  forall c, In c cs -> (exists q, In q qs /\ text q = text (local c)) ->
  In (server c) (fold_left (fun qs c => replace_with_server c qs) cs qs).
Proof.
  revert qs; induction cs as [|c0 cs IH]; intros qs ND X c I E; [destruct I|].
  simpl. inversion ND as [|t ts Nin ND']; subst.
  destruct I as [<- | I].
  - apply fold_replace_In_keep.
    + now apply replace_with_server_In_server.
    + intros c' I' T. assert (c0 = c') as <-.
      { apply X; [now left | now right | exact T]. }
      apply Nin. exact (in_map (fun c => text (local c)) cs c0 I').
  - apply IH; [exact ND' | | exact I |].
    + intros c1 c2 I1 I2. apply X; now right.
    + destruct E as (q & Iq & Tq). exists q. split; [|exact Tq].
      apply replace_with_server_In_keep; [exact Iq|].
      rewrite Tq. intros T. apply Nin. rewrite <- T.
      exact (in_map (fun c => text (local c)) cs c I).
Qed.

(** C3, as the spec states it, fails when two pending conflicts share a
    local quote: a snapshot holding the local text twice with the two
    server categories yields two conflicts on the same local quote, and
    resolving all of them with the server side leaves that text with the
    category of the second only. *)
Lemma resolveAll_server_counterexample :
  let a1 := fst (syncQuotes_start (initial_app [dq "x" "Life"])) in
  let b := fst (syncQuotes_after_fetch (FetchOk [mkPost 1 "x" 2; mkPost 2 "x" 1]) a1) in
  let b' := resolveAllConflicts "server" b in
  ~ (pendingConflicts b' = [] /\
     forall c, In c (pendingConflicts b) ->
       exists q, In q (quotes b') /\ text q = text (local c) /\
                 category q = category (server c)).
Proof.
  intros a1 b b' [_ H].
  destruct (H (mkConflict (dq "x" "Life") (sq "x" "Server Wisdom" 1)))
    as (q & I & _ & C).
  - vm_compute. now left.
  - vm_compute in I. destruct I as [<- | []]. vm_compute in C. discriminate.
Qed.

(** C3 (amended). [resolveAllConflicts('server')] empties the pending
    queue and keeps the length of the store. It takes the pending
    conflicts in queue order and, in the store as the earlier ones left
    it, overwrites the first quote whose text is exactly the conflict's
    local text with the server version, doing nothing when no quote has
    that text, so a later conflict on the same local text reaches that
    quote only if an earlier server version kept the exact text (example
    [resolveAll_server_first_rename_masks]). When the pending conflicts have pairwise distinct local
    texts and no server text equals the local text of another pending
    conflict, every pending conflict whose local text is in the store
    ends with its server version (text and category) in the store. *)
Theorem resolveAll_server_spec (a : app) :
  let a' := resolveAllConflicts "server" a in
  pendingConflicts a' = [] /\
  quotes a' = fold_left (fun qs c => replace_with_server c qs)
                        (pendingConflicts a) (quotes a) /\
  (forall c qs, replace_with_server c qs =
     match find_pos (fun q => String.eqb (text q) (text (local c))) qs with
     | Some i => replace_at i (server c) qs
     | None => qs
     end) /\
  length (quotes a') = length (quotes a) /\
  (NoDup (map (fun c => text (local c)) (pendingConflicts a)) ->
   (forall c1 c2, In c1 (pendingConflicts a) -> In c2 (pendingConflicts a) ->
                  text (server c1) = text (local c2) -> c1 = c2) ->
   forall c, In c (pendingConflicts a) ->
             (exists q, In q (quotes a) /\ text q = text (local c)) ->
             In (server c) (quotes a')).
Proof.
  intros a'. unfold a', resolveAllConflicts. save_simpl.
  split; [reflexivity|]. split; [reflexivity|]. split; [apply replace_with_server_eq|].
  split.
  - apply fold_replace_length.
  - intros ND X c I E. now apply fold_replace_server.
Qed.

Lemma resolveAll_server_spec_witness :
  let a1 := fst (syncQuotes_start (initial_app [dq "x" "Life"; dq "y" "Life"])) in
  let b := fst (syncQuotes_after_fetch (FetchOk [mkPost 1 "x" 2; mkPost 2 "y" 1]) a1) in
  pendingConflicts (resolveAllConflicts "server" b) = [] /\
  length (pendingConflicts b) = 2 /\
  In (sq "x" "Server Wisdom" 1) (quotes (resolveAllConflicts "server" b)).
Proof.
  intros a1 b.
  destruct (resolveAll_server_spec b) as (E & _ & _ & _ & S).
  split; [exact E|]. split; [reflexivity|].
  apply (S ltac:(vm_compute; constructor;
                 [simpl; intros [H | []]; discriminate
                 | constructor; [simpl; tauto | constructor]])
           ltac:(vm_compute; intros c1 c2 [<- | [<- | []]] [<- | [<- | []]]; simpl;
                 intros H; first [reflexivity | discriminate])
           (mkConflict (dq "x" "Life") (sq "x" "Server Wisdom" 1))).
  - vm_compute. now left.
  - exists (dq "x" "Life"). split; [vm_compute; now left | reflexivity].
Defined.

(** Two pending conflicts on the same local quote: the first server
    version changes the text, so the second conflict finds no quote with
    its local text and the first server version stays. *)
Example resolveAll_server_first_rename_masks :
  let l := dq "x" "Life" in
  let c1 := mkConflict l (sq "X" "Server Wisdom" 1) in
  let c2 := mkConflict l (sq "x " "Server Insight" 2) in
  quotes (resolveAllConflicts "server"
            (mkApp [l] [c1; c2] false None [] None [] 0 [] false))
  = [sq "X" "Server Wisdom" 1].
Proof. reflexivity. Qed.

(* ------------------------------------------------------------------ *)
(** ** Resolving one conflict *)

Lemma resolveConflict_length i ch a a' :
  resolveConflict i ch a = Some a' -> length (quotes a') = length (quotes a).
Proof.
  unfold resolveConflict.
  destruct (Z.of_nat (length (pendingConflicts a)) <=? i)%Z.
  - intros H; injection H as <-. reflexivity.
  - cbv zeta.
    destruct (String.eqb ch "server");
      [destruct (at_index (pendingConflicts a) i) as [c|]; [|destruct (quotes a) eqn:Q]|];
      try discriminate;
      destruct (splice_one (pendingConflicts a) i); intros H; injection H as <-;
      save_simpl; rewrite ?replace_with_server_length, ?Q; reflexivity.
Qed.

(** For the indices the modal's buttons pass (non-negative), an index past
    the end changes nothing and an index inside the queue removes exactly
    that conflict, whatever the choice. *)
Lemma resolveConflict_nonneg_index (a : app) (index : Z) (choice : string) :
  (0 <= index)%Z ->
  ((Z.of_nat (length (pendingConflicts a)) <= index)%Z ->
     resolveConflict index choice a = Some a) /\
  ((index < Z.of_nat (length (pendingConflicts a)))%Z ->
     exists a', resolveConflict index choice a = Some a' /\
       pendingConflicts a' = remove_at (Z.to_nat index) (pendingConflicts a)).
Proof.
  intros Pos. split.
  - intros Le. unfold resolveConflict. now rewrite (proj2 (Z.leb_le _ _) Le).
  - intros Lt. unfold resolveConflict.
    rewrite (proj2 (Z.leb_gt _ _) Lt). cbv zeta.
    assert (exists c, at_index (pendingConflicts a) index = Some c) as [c Hc].
    { unfold at_index. rewrite (proj2 (Z.ltb_ge _ _) Pos).
      destruct (nth_error (pendingConflicts a) (Z.to_nat index)) as [c|] eqn:N.
      - now exists c.
      - apply nth_error_None in N. lia. }
    assert (splice_one (pendingConflicts a) index
            = remove_at (Z.to_nat index) (pendingConflicts a)) as Sp.
    { unfold splice_one. rewrite (proj2 (Z.ltb_ge _ _) Pos).
      now rewrite Z.min_l by lia. }
    rewrite Hc, Sp.
    destruct (String.eqb choice "server");
      destruct (remove_at (Z.to_nat index) (pendingConflicts a)) eqn:R;
      eexists; split; try reflexivity; save_simpl; first [exact R | reflexivity].
Qed.

Lemma remove_at_length {A} (n : nat) (l : list A) :
  n < length l -> length (remove_at n l) = length l - 1.
Proof.
  revert n. induction l as [|x r IH]; intros [|n] H; simpl in *; try lia.
  rewrite IH by lia. lia.
Qed.

Lemma conflict_buttons_in_range (cs : list conflict) (i : Z) (ch : string) :
  In (i, ch) (conflict_buttons cs) -> (0 <= i < Z.of_nat (length cs))%Z.
Proof.
  unfold conflict_buttons. rewrite in_flat_map.
  intros (n & Hn & Hin). apply in_seq in Hn.
  simpl in Hin. destruct Hin as [E|[E|[]]]; injection E as <- _; lia.
Qed.

(** C6. The modal's buttons pass the indices [0 .. n-1] of the queue they
    were built from, and the modal is rebuilt after every resolution, so
    [resolveConflict] receives non-negative indices. For those, an index
    past the end of the queue changes nothing (store and queue), and an
    index inside the queue removes exactly that conflict, with either
    choice: the queue loses one element and the others keep their order. *)
Theorem resolveConflict_modal_indices (a : app) (index : Z) (choice : string) :
  (forall i ch, In (i, ch) (conflict_buttons (pendingConflicts a)) ->
     (0 <= i < Z.of_nat (length (pendingConflicts a)))%Z) /\
  ((0 <= index)%Z ->
   ((Z.of_nat (length (pendingConflicts a)) <= index)%Z ->
      resolveConflict index choice a = Some a) /\
   ((index < Z.of_nat (length (pendingConflicts a)))%Z ->
      exists a', resolveConflict index choice a = Some a' /\
        pendingConflicts a' = remove_at (Z.to_nat index) (pendingConflicts a) /\
        length (pendingConflicts a') = length (pendingConflicts a) - 1)).
Proof.
  split; [intros i ch; apply conflict_buttons_in_range|].
  intros Pos. destruct (resolveConflict_nonneg_index a index choice Pos) as [Out In].
  split; [exact Out|].
  intros Lt. destruct (In Lt) as (a' & R & P).
  exists a'. split; [exact R|]. split; [exact P|].
  rewrite P. apply remove_at_length. lia.
Qed.

Lemma resolveConflict_modal_indices_witness :
  let c1 := mkConflict (dq "x" "Life") (sq "x" "Server Wisdom" 1) in
  let c2 := mkConflict (dq "y" "Life") (sq "y" "Server Insight" 2) in
  let a := mkApp [dq "x" "Life"; dq "y" "Life"] [c1; c2] false None [] None [] 0 [] false in
  In (1%Z, "server") (conflict_buttons (pendingConflicts a)) /\
  exists a', resolveConflict 1 "server" a = Some a' /\ pendingConflicts a' = [c1].
Proof.
  intros c1 c2 a.
  assert (In (1%Z, "server") (conflict_buttons (pendingConflicts a))) as B
    by (vm_compute; tauto).
  split; [exact B|].
  destruct (proj1 (resolveConflict_modal_indices a 1 "server") 1%Z "server" B) as [P L].
  destruct (proj2 (proj2 (resolveConflict_modal_indices a 1 "server") P) L)
    as (a' & R & Q & _).
  exists a'. split; [exact R|]. rewrite Q. reflexivity.
Defined.

(* ------------------------------------------------------------------ *)
(** ** Import *)

Example import_spec_example :
  let payload := JArr [JObj [("text", JStr "A"); ("category", JStr "B")];
                       JObj [("text", JStr "")];
                       JObj [("foo", JNum 1)]] in
  let a' := importFromJsonFile (Some payload) (initial_app defaultQuotes) in
  quotes a' = defaultQuotes ++ [mkQuote "A" "B" None None] /\
  notifications a' = [(MsgImported 1 1, Success); (MsgSkipped 2, Error)].
Proof. split; reflexivity. Qed.

(** C8 fails on an array holding [null]: the [filter] callback reads
    [quote.text] of [null], the [TypeError] is caught by the handler, and
    the whole file is rejected although it holds a valid quote. *)
Lemma import_null_element_rejects_batch :
  let payload := JArr [JObj [("text", JStr "A"); ("category", JStr "B")]; JNull] in
  let a' := importFromJsonFile (Some payload) (initial_app defaultQuotes) in
  quotes a' = defaultQuotes /\
  notifications a' = [(MsgImportError NullElement, Error)].
Proof. split; reflexivity. Qed.

(* ------------------------------------------------------------------ *)
(** ** Growth of the store *)

Lemma addQuote_length t c a : length (quotes a) <= length (quotes (addQuote t c a)).
Proof.
  unfold addQuote.
  destruct (String.eqb (trim t) "" || String.eqb (trim c) ""); save_simpl;
    rewrite ?length_app; lia.
Qed.

Lemma importFromJsonFile_length p a :
  length (quotes a) <= length (quotes (importFromJsonFile p a)).
Proof.
  unfold importFromJsonFile.
  destruct p as [[| | | | items |]|]; simpl; try lia.
  destruct (js_filter validQuote items) as [[|v vs]|]; simpl; try lia.
  destruct (Nat.ltb _ _); save_simpl; rewrite length_app; lia.
Qed.

Lemma resolveAllConflicts_length ch a :
  length (quotes (resolveAllConflicts ch a)) = length (quotes a).
Proof.
  unfold resolveAllConflicts.
  destruct (String.eqb ch "server"); save_simpl; [apply fold_replace_length | reflexivity].
Qed.

Lemma sync_resume_length k ev a a' k' :
  sync_resume k ev a = Some (a', k') -> length (quotes a) <= length (quotes a').
Proof.
  destruct k as [|nC nN], ev as [o|ok now|ps msg|msg]; simpl; try discriminate;
    intros H; injection H as H.
  - destruct (syncQuotes_after_fetch o a) as [b l] eqn:E.
    injection H as <- <-. destruct l as [k|].
    + apply syncQuotes_after_fetch_quotes in E. rewrite E, length_app. lia.
    + unfold syncQuotes_after_fetch in E.
      destruct (fetchQuotesFromServer_resume o a) as [a1 sd] eqn:F.
      destruct sd as [|s r].
      * injection E as <-. destruct o; simpl in F; inversion F; subst; simpl; lia.
      * destruct (detectConflicts (quotes a1) (s :: r)); discriminate.
  - subst. simpl. lia.
  - subst. unfold syncQuotes_after_post.
    destruct (Nat.eqb nC 0 && Nat.ltb 0 nN); [simpl; lia|].
    destruct (Nat.eqb nC 0 && Nat.eqb nN 0); simpl; lia.
  - subst. simpl. lia.
Qed.

(** C9, as stated, fails: [clearAllData] (after [confirm]) replaces the
    store by the ten default quotes, so a store of eleven quotes shrinks. *)
Lemma store_never_shrinks_counterexample :
  ~ (forall w e w', page_step w e = Some w' ->
       length (quotes (wapp w)) <= length (quotes (wapp w'))).
Proof.
  intros H.
  specialize (H (mkWorld (initial_app (defaultQuotes ++ [dq "x" "y"])) [])
                (User (OpClearAllData true)) _ eq_refl).
  vm_compute in H. lia.
Qed.

(** C9 (amended). Every step of the page either leaves the store at
    least as long as before ([addQuote], [importFromJsonFile], the sync
    merge, [resolveConflict] and [resolveAllConflicts], which replace in
    place, and every other step), or is a confirmed [clearAllData], which
    resets the store to the ten default quotes. *)
Theorem store_grows_except_clearAllData (w w' : world) (e : page_event) :
  page_step w e = Some w' ->
  length (quotes (wapp w)) <= length (quotes (wapp w')) \/
  (e = User (OpClearAllData true) /\ quotes (wapp w') = defaultQuotes).
Proof.
  destruct e as [| i ev | op]; simpl.
  - destruct (syncQuotes_start (wapp w)) as [a' k] eqn:S.
    intros H; injection H as <-. left. simpl.
    rewrite <- (syncQuotes_start_quotes (wapp w)), S. simpl. lia.
  - destruct (nth_error (inflight w) i) as [k|]; [|discriminate].
    destruct (sync_resume k ev (wapp w)) as [[a' k']|] eqn:R; [|discriminate].
    intros H; injection H as <-. left. simpl. eapply sync_resume_length, R.
  - intros H; injection H as <-. simpl.
    destruct op as [t c | p | i ch | ch | | b]; simpl.
    + left. apply addQuote_length.
    + left. apply importFromJsonFile_length.
    + left. destruct (resolveConflict i ch (wapp w)) as [a'|] eqn:R; [|lia].
      apply resolveConflict_length in R. lia.
    + left. rewrite resolveAllConflicts_length. lia.
    + left. simpl. lia.
    + destruct b; [right; split; [reflexivity|] | left; simpl; lia].
      unfold clearAllData. save_simpl. reflexivity.
Qed.

Lemma store_grows_except_clearAllData_witness :
  length (quotes (wapp (mkWorld (initial_app defaultQuotes) []))) <=
  length (quotes (addQuote "Stay curious." "Wisdom" (initial_app defaultQuotes))) \/
  (User (OpAddQuote "Stay curious." "Wisdom") = User (OpClearAllData true) /\
   quotes (addQuote "Stay curious." "Wisdom" (initial_app defaultQuotes)) = defaultQuotes).
Proof.
  exact (store_grows_except_clearAllData
           (mkWorld (initial_app defaultQuotes) [])
           (mkWorld (addQuote "Stay curious." "Wisdom" (initial_app defaultQuotes)) [])
           (User (OpAddQuote "Stay curious." "Wisdom")) eq_refl).
Defined.

(* ------------------------------------------------------------------ *)
(** ** Categories: [getUniqueCategories], [populateCategories] *)

Lemma ascii_compare_refl (c : ascii) : Ascii.compare c c = Eq.
Proof. unfold Ascii.compare. apply N.compare_refl. Qed.

Lemma ascii_compare_lt_trans (x y z : ascii) :
  Ascii.compare x y = Lt -> Ascii.compare y z = Lt -> Ascii.compare x z = Lt.
Proof.
  unfold Ascii.compare. rewrite !N.compare_lt_iff. lia.
Qed.

Lemma str_lt_trans (x y z : string) : str_lt x y -> str_lt y z -> str_lt x z.
Proof.
  unfold str_lt. revert y z.
  induction x as [|a x IH]; intros [|b y] [|c z]; simpl; try discriminate; auto.
  destruct (Ascii.compare a b) eqn:E1; try discriminate; intros H1;
  destruct (Ascii.compare b c) eqn:E2; try discriminate; intros H2.
  - apply Ascii.compare_eq_iff in E1, E2. subst.
    rewrite ascii_compare_refl. eauto.
  - apply Ascii.compare_eq_iff in E1. subst. now rewrite E2.
  - apply Ascii.compare_eq_iff in E2. subst. now rewrite E1.
  - now rewrite (ascii_compare_lt_trans _ _ _ E1 E2).
Qed.

Lemma str_lt_irrefl (x : string) : ~ str_lt x x.
Proof.
  unfold str_lt. intros H.
  pose proof (String.compare_antisym x x) as A. rewrite H in A. discriminate.
Qed.

Lemma str_lt_of_not_ltb (x y : string) :
  x <> y -> String.ltb y x = false -> str_lt x y.
Proof.
  unfold str_lt, String.ltb. intros Ne L.
  rewrite String.compare_antisym.
  destruct (String.compare y x) eqn:E; try discriminate; simpl; auto.
  apply String.compare_eq_iff in E. congruence.
Qed.

Lemma insert_sorted_In (x z : string) (l : list string) :
  In z (insert_sorted x l) <-> z = x \/ In z l.
Proof.
  induction l as [|y r IH]; simpl.
  - intuition.
  - destruct (String.ltb y x); simpl; rewrite ?IH; intuition.
Qed.

Lemma insert_sorted_sorted (x : string) (l : list string) :
  StronglySorted str_lt l -> ~ In x l -> StronglySorted str_lt (insert_sorted x l).
Proof.
  induction l as [|y r IH]; simpl; intros S Nin.
  - constructor; constructor.
  - inversion S as [|y' r' Sr Fr]; subst.
    destruct (String.ltb y x) eqn:L.
    + constructor.
      * apply IH; auto.
      * apply Forall_forall. intros z Hz. apply insert_sorted_In in Hz as [->|Hz].
        -- unfold str_lt. unfold String.ltb in L.
           destruct (String.compare y x); congruence.
        -- exact (proj1 (Forall_forall _ _) Fr z Hz).
    + assert (str_lt x y) as Lxy by (apply str_lt_of_not_ltb; auto).
      constructor; [exact S|].
      constructor; [exact Lxy|].
      apply Forall_forall. intros z Hz.
      apply (str_lt_trans _ y); [exact Lxy|].
      exact (proj1 (Forall_forall _ _) Fr z Hz).
Qed.

Lemma fold_insert_In (l acc : list string) (z : string) :
  In z (fold_left (fun acc x => insert_sorted x acc) l acc) <-> In z acc \/ In z l.
Proof.
  revert acc. induction l as [|x r IH]; intros acc; simpl.
  - intuition.
  - rewrite IH, insert_sorted_In. intuition.
Qed.

Lemma fold_insert_sorted (l acc : list string) :
  NoDup l -> (forall x, In x l -> ~ In x acc) -> StronglySorted str_lt acc ->
  StronglySorted str_lt (fold_left (fun acc x => insert_sorted x acc) l acc).
Proof.
  revert acc. induction l as [|x r IH]; intros acc N D S; simpl; [exact S|].
  inversion N as [|x' r' Nx Nr]; subst.
  apply IH; [exact Nr| |].
  - intros z Hz Hin. apply insert_sorted_In in Hin as [->|Hin].
    + contradiction.
    + exact (D z (or_intror Hz) Hin).
  - apply insert_sorted_sorted; [exact S|]. exact (D x (or_introl eq_refl)).
Qed.

Lemma StronglySorted_str_lt_NoDup (l : list string) :
  StronglySorted str_lt l -> NoDup l.
Proof.
  induction l as [|x r IH]; intros S; constructor.
  - inversion S as [|x' r' Sr Fr]; subst. intros Hin.
    exact (str_lt_irrefl x (proj1 (Forall_forall _ _) Fr x Hin)).
  - inversion S; auto.
Qed.

Lemma existsb_eqb_In (x : string) (l : list string) :
  existsb (String.eqb x) l = true <-> In x l.
Proof.
  rewrite existsb_exists. split.
  - intros (y & Hy & E). apply String.eqb_eq in E. now subst.
  - intros Hx. exists x. split; [exact Hx|]. apply String.eqb_refl.
Qed.

Lemma NoDup_snoc {A} (l : list A) (x : A) : NoDup l -> ~ In x l -> NoDup (l ++ [x]).
Proof.
  induction l as [|y r IH]; simpl; intros N Nin.
  - constructor; [intros []|constructor].
  - inversion N as [|y' r' Ny Nr]; subst. constructor.
    + rewrite in_app_iff. simpl. intuition.
    + apply IH; auto.
Qed.

Lemma unique_categories_fold (qs : list quote) (acc : list string) :
  NoDup acc ->
  let r := fold_left (fun acc q => if existsb (String.eqb (category q)) acc
                                   then acc else acc ++ [category q]) qs acc in
  NoDup r /\ (forall c, In c r <-> In c acc \/ exists q, In q qs /\ category q = c).
Proof.
  revert acc. induction qs as [|q qs IH]; intros acc N; simpl.
  - split; [exact N|]. intros c. split; [auto|]. intros [H|(q & [] & _)]; exact H.
  - destruct (existsb (String.eqb (category q)) acc) eqn:E.
    + destruct (IH acc N) as [N' M]. split; [exact N'|]. intros c. rewrite M.
      apply existsb_eqb_In in E. split.
      * intros [H|(q' & H1 & H2)]; [auto|]. right. exists q'. auto.
      * intros [H|(q' & [<-|H1] & H2)]; [auto| |].
        -- left. now subst.
        -- right. exists q'. auto.
    + assert (NoDup (acc ++ [category q])) as N1.
      { apply NoDup_snoc; [exact N|]. intros Hin.
        apply existsb_eqb_In in Hin. congruence. }
      destruct (IH _ N1) as [N' M]. split; [exact N'|]. intros c. rewrite M.
      rewrite in_app_iff. simpl. split.
      * intros [[H|[<-|[]]]|(q' & H1 & H2)]; [auto| |].
        -- right. exists q. auto.
        -- right. exists q'. auto.
      * intros [H|(q' & [<-|H1] & H2)]; [auto| |].
        -- left. right. left. exact H2.
        -- right. exists q'. auto.
Qed.

Lemma unique_categories_In (qs : list quote) (c : string) :
  In c (unique_categories qs) <-> exists q, In q qs /\ category q = c.
Proof.
  unfold unique_categories.
  destruct (unique_categories_fold qs [] (NoDup_nil _)) as [_ M].
  rewrite M. simpl. intuition.
Qed.

Lemma unique_categories_NoDup (qs : list quote) : NoDup (unique_categories qs).
Proof. exact (proj1 (unique_categories_fold qs [] (NoDup_nil _))). Qed.

Lemma getUniqueCategories_In (qs : list quote) (c : string) :
  In c (getUniqueCategories qs) <-> exists q, In q qs /\ category q = c.
Proof.
  unfold getUniqueCategories, sort_strings.
  rewrite fold_insert_In, unique_categories_In. simpl. intuition.
Qed.

(** [getUniqueCategories()] lists every category of the store once: in
    strictly increasing code-unit order, without duplicates, and holding
    exactly the categories of the quotes in the store. *)
Theorem getUniqueCategories_sorted_set (qs : list quote) :
  StronglySorted str_lt (getUniqueCategories qs) /\
  NoDup (getUniqueCategories qs) /\
  (forall c, In c (getUniqueCategories qs) <-> exists q, In q qs /\ category q = c).
Proof.
  assert (StronglySorted str_lt (getUniqueCategories qs)) as S.
  { unfold getUniqueCategories, sort_strings.
    apply fold_insert_sorted.
    - apply unique_categories_NoDup.
    - intros x _ [].
    - constructor. }
  split; [exact S|]. split; [now apply StronglySorted_str_lt_NoDup|].
  apply getUniqueCategories_In.
Qed.

Lemma getUniqueCategories_existsb (qs : list quote) (c : string) :
  existsb (String.eqb c) (getUniqueCategories qs) = true <->
  exists q, In q qs /\ category q = c.
Proof. rewrite existsb_eqb_In. apply getUniqueCategories_In. Qed.

Lemma populateCategories_kept (cur sel : string) (qs : list quote) :
  (cur = "all" \/ (cur <> "" /\ exists q, In q qs /\ category q = cur)) ->
  populateCategories cur sel qs = (cur, sel).
Proof.
  unfold populateCategories.
  intros [->|[Ne Ex]]; [reflexivity|].
  rewrite (proj2 (String.eqb_neq _ _) Ne).
  rewrite (proj2 (getUniqueCategories_existsb qs cur) Ex).
  now rewrite orb_true_r.
Qed.

(** Rebuilding the dropdown keeps a non-empty previous value that is
    'all' or the category of a quote of the store, together with
    [selectedCategory]; any other previous value, the empty one included,
    is replaced by 'all' in the dropdown and in [selectedCategory]. *)
Theorem populateCategories_keeps_valid_selection
    (cur sel : string) (qs : list quote) :
  ((cur = "all" \/ (cur <> "" /\ exists q, In q qs /\ category q = cur)) ->
     populateCategories cur sel qs = (cur, sel)) /\
  ((cur = "" \/ (cur <> "all" /\ forall q, In q qs -> category q <> cur)) ->
     populateCategories cur sel qs = ("all", "all")).
Proof.
  split; [apply populateCategories_kept|].
  unfold populateCategories.
  - intros [->|[Na Nx]]; [reflexivity|].
    destruct (String.eqb cur "") eqn:E; [reflexivity|].
    rewrite (proj2 (String.eqb_neq _ _) Na).
    destruct (existsb (String.eqb cur) (getUniqueCategories qs)) eqn:X; [|reflexivity].
    apply getUniqueCategories_existsb in X as (q & Hq & Hc).
    exfalso. exact (Nx q Hq Hc).
Qed.

Lemma populateCategories_keeps_valid_selection_witness :
  ("Life" = "all" \/ ("Life" <> "" /\
     exists q, In q defaultQuotes /\ category q = "Life")) /\
  ("Poetry" = "" \/ ("Poetry" <> "all" /\
     forall q, In q defaultQuotes -> category q <> "Poetry")) /\
  populateCategories "Life" "Life" defaultQuotes = ("Life", "Life") /\
  populateCategories "Poetry" "Poetry" defaultQuotes = ("all", "all").
Proof.
  assert (("Life" = "all" \/ ("Life" <> "" /\
             exists q, In q defaultQuotes /\ category q = "Life"))) as H1.
  { right. split; [discriminate|].
    exists (dq "Life is what happens when you're busy making other plans." "Life").
    split; [simpl; tauto|reflexivity]. }
  assert ("Poetry" = "" \/ ("Poetry" <> "all" /\
            forall q, In q defaultQuotes -> category q <> "Poetry")) as H2.
  { right. split; [discriminate|].
    intros q Hq. simpl in Hq.
    repeat (destruct Hq as [<-|Hq]; [simpl; discriminate|]). destruct Hq. }
  split; [exact H1|]. split; [exact H2|]. split.
  - exact (proj1 (populateCategories_keeps_valid_selection "Life" "Life" defaultQuotes) H1).
  - exact (proj2 (populateCategories_keeps_valid_selection "Poetry" "Poetry" defaultQuotes) H2).
Defined.

(** When [selectedCategory] agrees with the dropdown before it is rebuilt
    (as [filterQuotes] leaves them), the filtered view after the rebuild
    is never empty while the store has quotes: the kept category still
    has a quote, and a dropped one falls back to 'all'. *)
Theorem populateCategories_view_nonempty (cur : string) (qs : list quote) :
  qs <> [] ->
  let '(_, sel') := populateCategories cur cur qs in
  getFilteredQuotes sel' qs <> [].
Proof.
  intros Ne. unfold populateCategories.
  destruct (negb (String.eqb cur "") && (String.eqb cur "all"
              || existsb (String.eqb cur) (getUniqueCategories qs))) eqn:K;
    unfold getFilteredQuotes.
  - destruct (String.eqb cur "all") eqn:A; [exact Ne|].
    apply andb_true_iff in K as [_ K]. apply orb_true_iff in K as [K|K];
      [congruence|].
    apply getUniqueCategories_existsb in K as (q & Hq & Hc).
    intros E. assert (In q (filter (fun q => String.eqb (category q) cur) qs)) as F.
    { apply filter_In. split; [exact Hq|]. now apply String.eqb_eq. }
    rewrite E in F. destruct F.
  - exact Ne.
Qed.

Lemma populateCategories_view_nonempty_witness :
  defaultQuotes <> [] /\
  getFilteredQuotes (snd (populateCategories "Poetry" "Poetry" defaultQuotes))
                    defaultQuotes <> [].
Proof.
  assert (defaultQuotes <> []) as Ne by discriminate.
  split; [exact Ne|].
  pose proof (populateCategories_view_nonempty "Poetry" defaultQuotes Ne) as H.
  destruct (populateCategories "Poetry" "Poetry" defaultQuotes) as [v s]. exact H.
Defined.

(** [addQuote()]: when the trimmed text or the trimmed category is empty
    the store is unchanged and the error 'Please enter both...' is shown;
    otherwise exactly one quote is appended, holding the trimmed inputs,
    no [id] and the source 'local'; the notices are the error of
    [saveQuotes] when the storage is full, then the success notice, which
    names the category as new exactly when no quote of the store had it. *)
Theorem addQuote_spec (t c : string) (a : app) :
  ((trim t = "" \/ trim c = "") /\
   quotes (addQuote t c a) = quotes a /\
   notifications (addQuote t c a) = notifications a ++ [(MsgEnterBoth, Error)]) \/
  (trim t <> "" /\ trim c <> "" /\
   quotes (addQuote t c a) = quotes a ++ [mkQuote (trim t) (trim c) None (Some "local")] /\
   exists m, notifications (addQuote t c a) =
               notifications a ++ save_notices a ++ [(MsgQuoteAdded m, Success)] /\
     (m = None \/ m = Some (trim c)) /\
     (m = Some (trim c) <-> forall q, In q (quotes a) -> category q <> trim c)).
Proof.
  unfold addQuote.
  destruct (String.eqb (trim t) "") eqn:Et; simpl.
  - left. split; [left; now apply String.eqb_eq|]. auto.
  - destruct (String.eqb (trim c) "") eqn:Ec; simpl.
    + left. split; [right; now apply String.eqb_eq|]. auto.
    + right. apply String.eqb_neq in Et, Ec.
      split; [exact Et|]. split; [exact Ec|]. split; [save_simpl; reflexivity|].
      eexists. split.
      { simpl. rewrite saveQuotes_notifications, <- app_assoc. reflexivity. }
      destruct (existsb (String.eqb (trim c)) (unique_categories (quotes a))) eqn:X;
        simpl.
      * split; [now left|]. split; [discriminate|].
        apply existsb_eqb_In, unique_categories_In in X as (q & Hq & Hc).
        intros N. exfalso. exact (N q Hq Hc).
      * split; [now right|]. split; [|reflexivity]. intros _ q Hq Hc.
        assert (In (trim c) (unique_categories (quotes a))) as I
          by (apply unique_categories_In; eauto).
        apply existsb_eqb_In in I. congruence.
Qed.

(* ------------------------------------------------------------------ *)
(** ** Export and import *)

Lemma json_to_quote_to_json (q : quote) : json_to_quote (quote_to_json q) = q.
Proof. destruct q as [t c [n|] [s|]]; reflexivity. Qed.

Lemma validQuote_quote_to_json (q : quote) :
  text q <> "" -> category q <> "" -> validQuote (quote_to_json q) = Some true.
Proof.
  destruct q as [t c i s]; simpl; intros Ht Hc.
  apply String.eqb_neq in Ht, Hc.
  destruct i, s; unfold validQuote; simpl; rewrite Ht; simpl; rewrite Hc; reflexivity.
Qed.

Lemma js_filter_all {A} (cb : A -> option bool) (l : list A) :
  Forall (fun x => cb x = Some true) l -> js_filter cb l = Some l.
Proof.
  induction 1 as [|x r Hx _ IH]; simpl; [reflexivity|]. now rewrite Hx, IH.
Qed.

(** Exporting a non-empty store whose quotes all have a non-empty text
    and category, then importing that file, appends exactly the exported
    quotes (with their [id] and [source]) to the store being imported
    into; every element is accepted, so no skipped-count notice follows:
    after the error of [saveQuotes] when the storage is full, the only
    notice is the success notice counting all of them. *)
Theorem export_import_roundtrip (qs : list quote) (a : app) :
  qs <> [] ->
  Forall (fun q => text q <> "" /\ category q <> "") qs ->
  exists f, exportToJsonFile qs = ExportFile f /\
    quotes (importFromJsonFile (Some f) a) = quotes a ++ qs /\
    exists k, notifications (importFromJsonFile (Some f) a) =
              notifications a ++ save_notices a ++ [(MsgImported (length qs) k, Success)].
Proof.
  intros Ne V. destruct qs as [|q0 qs0] eqn:Q; [congruence|]. rewrite <- Q in *.
  exists (quotes_json qs). split; [subst; reflexivity|].
  assert (js_filter validQuote (map quote_to_json qs) = Some (map quote_to_json qs)) as J.
  { apply js_filter_all, Forall_map. eapply Forall_impl; [|exact V].
    intros q [Ht Hc]. now apply validQuote_quote_to_json. }
  assert (map json_to_quote (map quote_to_json qs) = qs) as M.
  { rewrite map_map. erewrite map_ext; [apply map_id|]. apply json_to_quote_to_json. }
  unfold importFromJsonFile, quotes_json. rewrite J.
  case_eq (map quote_to_json qs); [intros E; subst; discriminate|].
  intros j js E. rewrite <- E, Nat.ltb_irrefl, M. simpl.
  split; [save_simpl; reflexivity|]. rewrite length_map. eexists.
  simpl. rewrite saveQuotes_notifications, <- app_assoc. reflexivity.
Qed.

Lemma export_import_roundtrip_witness :
  defaultQuotes <> [] /\
  Forall (fun q => text q <> "" /\ category q <> "") defaultQuotes /\
  quotes (importFromJsonFile
            (match exportToJsonFile defaultQuotes with
             | ExportFile f => Some f | ExportEmpty => None end)
            (initial_app [])) = defaultQuotes.
Proof.
  assert (defaultQuotes <> []) as Ne by discriminate.
  assert (Forall (fun q => text q <> "" /\ category q <> "") defaultQuotes) as V.
  { repeat constructor; discriminate. }
  split; [exact Ne|]. split; [exact V|].
  destruct (export_import_roundtrip defaultQuotes (initial_app []) Ne V)
    as (f & E & Q & _).
  rewrite E. exact Q.
Defined.

(* ------------------------------------------------------------------ *)
(** ** Repeated sync cycles *)

Lemma find_app {A} (p : A -> bool) (l1 l2 : list A) :
  find p (l1 ++ l2) = match find p l1 with Some x => Some x | None => find p l2 end.
Proof.
  induction l1 as [|y r IH]; simpl; [reflexivity|]. destruct (p y); auto.
Qed.

Lemma find_None_In {A} (p : A -> bool) (l : list A) (x : A) :
  find p l = None -> In x l -> p x = false.
Proof.
  intros F I. apply find_None_iff in F. exact (proj1 (Forall_forall _ _) F x I).
Qed.

Lemma detectConflicts_news (qs data : list quote) :
  snd (detectConflicts qs data) =
  filter (fun s => match classify qs s with VNew => true | _ => false end) data.
Proof. unfold detectConflicts. now rewrite detectConflicts_fold. Qed.

Lemma detectConflicts_no_new_twice_aux (qs extra data : list quote) :
  snd (detectConflicts (qs ++ snd (detectConflicts qs data) ++ extra) data) = [].
Proof.
  rewrite detectConflicts_news.
  set (news := snd (detectConflicts qs data)).
  rewrite (filter_ext_in _ (fun _ => false)); [apply filter_false|].
  intros s Hs.
  unfold classify.
  set (p := fun q => String.eqb (normalize (text q)) (normalize (text s))).
  rewrite find_app.
  destruct (find p qs) as [l|] eqn:F1.
  - destruct (String.eqb (category l) (category s)); reflexivity.
  - rewrite find_app.
    assert (In s news) as In_s.
    { unfold news. rewrite detectConflicts_news. apply filter_In.
      split; [exact Hs|]. unfold classify. fold p. now rewrite F1. }
    destruct (find p news) as [l|] eqn:F2.
    + destruct (String.eqb (category l) (category s)); reflexivity.
    + exfalso. pose proof (find_None_In p news s F2 In_s) as P.
      unfold p in P. now rewrite String.eqb_refl in P.
Qed.

(** Running [detectConflicts] again on the same snapshot, against the
    store it extended (with any quotes appended after it), finds no new
    quote: each remote quote now matches the local quote it matched
    before or the copy of itself added by the first run. *)
Theorem detectConflicts_no_new_twice (qs extra data : list quote) :
  snd (detectConflicts (qs ++ snd (detectConflicts qs data) ++ extra) data) = [].
Proof.
  apply detectConflicts_no_new_twice_aux.
Qed.

(** A second cycle that receives the same snapshot appends nothing, even
    when quotes were added to the store in between. *)
Theorem second_sync_appends_nothing (a a1 b b1 : app) (posts : list post)
    (extra : list quote) (k k' : sync_cont) :
  syncQuotes_after_fetch (FetchOk posts) a = (a1, Some k) ->
  quotes b = quotes a1 ++ extra ->
  syncQuotes_after_fetch (FetchOk posts) b = (b1, Some k') ->
  quotes b1 = quotes b.
Proof.
  intros F1 E F2.
  apply syncQuotes_after_fetch_quotes in F1, F2.
  cbn [fetchQuotesFromServer_resume fst snd quotes set_serverQuotes] in F1, F2.
  rewrite F2. rewrite E at 2. rewrite F1, <- app_assoc, detectConflicts_no_new_twice_aux.
  apply app_nil_r.
Qed.

Lemma second_sync_appends_nothing_witness :
  exists a1 b1 k k',
    syncQuotes_after_fetch (FetchOk [mkPost 1 "fresh" 1])
      (initial_app [dq "x" "Life"]) = (a1, Some k) /\
    quotes (initial_app (quotes a1 ++ [dq "y" "Life"])) = quotes a1 ++ [dq "y" "Life"] /\
    syncQuotes_after_fetch (FetchOk [mkPost 1 "fresh" 1])
      (initial_app (quotes a1 ++ [dq "y" "Life"])) = (b1, Some k') /\
    quotes b1 = [dq "x" "Life"; sq "fresh" "Server Insight" 1; dq "y" "Life"].
Proof.
  do 4 eexists.
  split; [reflexivity|]. split; [reflexivity|]. split; [reflexivity|].
  exact (second_sync_appends_nothing (initial_app [dq "x" "Life"]) _
           (initial_app [dq "x" "Life"; sq "fresh" "Server Insight" 1; dq "y" "Life"])
           _ [mkPost 1 "fresh" 1] [dq "y" "Life"] _ _ eq_refl eq_refl eq_refl).
Defined.

(** What a completed cycle records besides the merge: one fetch issued,
    one post carrying the merged store, the server snapshot kept,
    [lastSyncTime] set to the clock read after the post, the flag down
    and the status 'Sync successful'. When quotes were appended, the
    error notice of [saveQuotes] comes first if the storage is full.
    Without conflicts it then shows one success notice counting exactly
    the quotes appended (or 'no changes') and leaves the queue alone; with
    conflicts it shows no further notice and the queue becomes this
    cycle's conflicts, replacing any still pending. *)
Theorem sync_cycle_bookkeeping (a a1 a2 a3 : app) (posts : list post)
    (k : sync_cont) (ok : bool) (now : Z) :
  syncQuotes_start a = (a1, Some AwaitFetch) ->
  sync_resume AwaitFetch (EvFetched (FetchOk posts)) a1 = Some (a2, Some k) ->
  sync_resume k (EvPosted ok now) a2 = Some (a3, None) ->
  let '(conflicts, news) := detectConflicts (quotes a) (map post_to_quote posts) in
  fetchesIssued a3 = S (fetchesIssued a) /\
  postsIssued a3 = postsIssued a ++ [quotes a3] /\
  serverQuotes a3 = map post_to_quote posts /\
  lastSyncTime a3 = Some now /\
  isSyncing a3 = false /\
  syncStatus a3 = Some SyncSuccessful /\
  let saved := if Nat.eqb (length news) 0 then [] else save_notices a in
  (conflicts = [] ->
     pendingConflicts a3 = pendingConflicts a /\
     notifications a3 = notifications a ++ saved ++
       [(if Nat.eqb (length news) 0 then MsgSyncNoChanges else MsgSyncAdded (length news),
         Success)]) /\
  (conflicts <> [] ->
     pendingConflicts a3 = conflicts /\ notifications a3 = notifications a ++ saved).
Proof.
  intros S F P.
  unfold syncQuotes_start in S. destruct (isSyncing a) eqn:I; [discriminate|].
  injection S as <-. simpl in F. injection F as F.
  unfold syncQuotes_after_fetch in F. simpl in F.
  destruct (map post_to_quote posts) as [|s r] eqn:M; [discriminate|].
  destruct (detectConflicts (quotes a) (s :: r)) as [cs ns] eqn:D.
  destruct cs as [|c cs], ns as [|n ns]; simpl in F; injection F as <- <-;
    simpl in P; injection P as <-; save_simpl;
    rewrite ?saveQuotes_notifications, ?app_nil_r, <- ?app_assoc; simpl;
    (repeat split; try reflexivity; try (intros Hc; discriminate));
    exfalso; congruence.
Qed.

Lemma sync_cycle_bookkeeping_witness :
  exists a1 a2 a3 k,
    syncQuotes_start (initial_app [dq "x" "Life"]) = (a1, Some AwaitFetch) /\
    sync_resume AwaitFetch
      (EvFetched (FetchOk [mkPost 1 "X " 2; mkPost 2 "fresh" 1])) a1 = Some (a2, Some k) /\
    sync_resume k (EvPosted true 7) a2 = Some (a3, None) /\
    lastSyncTime a3 = Some 7%Z.
Proof.
  do 4 eexists.
  split; [reflexivity|]. split; [reflexivity|]. split; [reflexivity|].
  pose proof (sync_cycle_bookkeeping (initial_app [dq "x" "Life"]) _ _ _
                [mkPost 1 "X " 2; mkPost 2 "fresh" 1] _ true 7
                eq_refl eq_refl eq_refl) as H.
  simpl in H. exact (proj1 (proj2 (proj2 (proj2 H)))).
Defined.

(* ------------------------------------------------------------------ *)
(** ** Resolving conflicts one by one *)

(** Pressing the first button of the modal once per pending conflict,
    with either choice, empties the queue without a throw and without
    changing the number of quotes in the store. *)
Theorem resolve_first_empties_queue (choice : string) (a : app) :
  exists a', resolve_first (length (pendingConflicts a)) choice a = Some a' /\
    pendingConflicts a' = [] /\ length (quotes a') = length (quotes a).
Proof.
  remember (length (pendingConflicts a)) as n eqn:Hn. revert a Hn.
  induction n as [|n IH]; intros a Hn; simpl.
  - exists a. split; [reflexivity|]. split; [|reflexivity].
    now destruct (pendingConflicts a).
  - destruct (proj2 (resolveConflict_nonneg_index a 0 choice (Z.le_refl 0)))
      as (a1 & R & P); [lia|].
    rewrite R.
    destruct (pendingConflicts a) as [|c cs] eqn:Pa; [discriminate|].
    simpl in P, Hn.
    destruct (IH a1) as (a' & R' & P' & L'); [rewrite P; lia|].
    exists a'. split; [exact R'|]. split; [exact P'|].
    rewrite L'. exact (resolveConflict_length _ _ _ _ R).
Qed.

(* ------------------------------------------------------------------ *)
(** ** Periodic sync timers *)

Lemma run_timer_op_inv (t : timers) (op : timer_op) :
  timer_inv t -> timer_inv (run_timer_op t op).
Proof.
  intros [N1 S].
  destruct op as [m|]; simpl; unfold startPeriodicSync, stopPeriodicSync, timer_inv.
  - destruct (syncInterval t) as [h|] eqn:Si.
    + destruct S as [Hp [m' A]].
      unfold handle_truthy. rewrite (proj2 (Nat.eqb_neq h 0)) by lia. simpl.
      split; [lia|]. split; [lia|]. exists m. rewrite A. simpl.
      now rewrite Nat.eqb_refl.
    + simpl. split; [lia|]. split; [lia|]. exists m. now rewrite S.
  - destruct (syncInterval t) as [h|] eqn:Si.
    + destruct S as [Hp [m' A]].
      unfold handle_truthy. rewrite (proj2 (Nat.eqb_neq h 0)) by lia. simpl.
      split; [exact N1|]. rewrite A. simpl. now rewrite Nat.eqb_refl.
    + split; [exact N1|]. now rewrite Si.
Qed.

Lemma run_timer_ops_inv (ops : list timer_op) (t : timers) :
  timer_inv t -> timer_inv (fold_left run_timer_op ops t).
Proof.
  revert t. induction ops as [|op ops IH]; intros t H; simpl; [exact H|].
  apply IH, run_timer_op_inv, H.
Qed.

Lemma startPeriodicSync_spec (t : timers) (m : Z) :
  timer_inv t -> exists h,
    syncInterval (startPeriodicSync m t) = Some h /\
    activeIntervals (startPeriodicSync m t) = [(h, (m * 60 * 1000)%Z)].
Proof.
  intros [_ I]. unfold startPeriodicSync.
  destruct (syncInterval t) as [h|] eqn:Si.
  - destruct I as [Hp [m' A]].
    destruct h as [|h]; [lia|]. simpl.
    eexists. split; [reflexivity|]. rewrite A. simpl. now rewrite Nat.eqb_refl.
  - eexists. split; [reflexivity|]. now rewrite I.
Qed.

Lemma stopPeriodicSync_spec (t : timers) :
  timer_inv t ->
  syncInterval (stopPeriodicSync t) = None /\ activeIntervals (stopPeriodicSync t) = [].
Proof.
  intros [_ I]. unfold stopPeriodicSync.
  destruct (syncInterval t) as [h|] eqn:Si.
  - destruct I as [Hp [m' A]].
    destruct h as [|h]; [lia|]. simpl.
    split; [reflexivity|]. rewrite A. simpl. now rewrite Nat.eqb_refl.
  - split; [exact Si|exact I].
Qed.

(** Whatever sequence of [startPeriodicSync] and [stopPeriodicSync] calls
    the page makes, at most one interval is registered, and it is the one
    [syncInterval] holds; after a start it fires every [intervalMinutes]
    minutes of that call, after a stop no interval is left. *)
Theorem periodic_sync_single_interval (ops : list timer_op) :
  let t := fold_left run_timer_op ops initial_timers in
  match syncInterval t with
  | None => activeIntervals t = []
  | Some h => exists m, activeIntervals t = [(h, (m * 60 * 1000)%Z)]
  end /\
  (forall m, exists h,
     syncInterval (fold_left run_timer_op (ops ++ [StartSync m]) initial_timers) = Some h /\
     activeIntervals (fold_left run_timer_op (ops ++ [StartSync m]) initial_timers)
       = [(h, (m * 60 * 1000)%Z)]) /\
  syncInterval (fold_left run_timer_op (ops ++ [StopSync]) initial_timers) = None /\
  activeIntervals (fold_left run_timer_op (ops ++ [StopSync]) initial_timers) = [].
Proof.
  assert (timer_inv initial_timers) as I0 by (split; simpl; auto).
  pose proof (run_timer_ops_inv ops _ I0) as I.
  split; [|split; [|split]].
  - destruct I as [_ I]. destruct (syncInterval _); [|exact I]. apply I.
  - intros m. rewrite fold_left_app. exact (startPeriodicSync_spec _ m I).
  - rewrite fold_left_app. exact (proj1 (stopPeriodicSync_spec _ I)).
  - rewrite fold_left_app. exact (proj2 (stopPeriodicSync_spec _ I)).
Qed.

(* ------------------------------------------------------------------ *)
(** ** Clearing the data and the filter *)

(** [clearAllData()] sets [selectedCategory] to 'all' before it calls
    [populateCategories()], which reads the dropdown, not the variable:
    when the dropdown showed a category that a default quote has, it keeps
    showing it while the view lists all ten default quotes. *)
Theorem clearAllData_dropdown_keeps_category (cur : string) (a : app) :
  (exists q, In q defaultQuotes /\ category q = cur) ->
  let qs := quotes (clearAllData true a) in
  populateCategories cur "all" qs = (cur, "all") /\
  getFilteredQuotes "all" qs = defaultQuotes.
Proof.
  intros Ex. unfold clearAllData. save_simpl. split; [|reflexivity].
  apply populateCategories_kept.
  right. split; [|exact Ex].
  destruct Ex as (q & Hq & <-). simpl in Hq.
  repeat (destruct Hq as [<-|Hq]; [simpl; discriminate|]). destruct Hq.
Qed.

Lemma clearAllData_dropdown_keeps_category_witness :
  (exists q, In q defaultQuotes /\ category q = "Wisdom") /\
  populateCategories "Wisdom" "all" (quotes (clearAllData true (initial_app []))) =
    ("Wisdom", "all").
Proof.
  assert (exists q, In q defaultQuotes /\ category q = "Wisdom") as Ex.
  { exists (dq "In the end, we will remember not the words of our enemies, but the silence of our friends." "Wisdom").
    split; [simpl; tauto|reflexivity]. }
  split; [exact Ex|].
  exact (proj1 (clearAllData_dropdown_keeps_category "Wisdom" (initial_app []) Ex)).
Defined.
